(** * atscppapi: the asynchronous timer and the HTTP fetch result accessors

    A shallow embedding of [src/AsyncTimer.cc] (constructor, [run],
    [handleTimerEvent] and the destructor of [AsyncTimer]) and of the
    result accessors declared in [AsyncHttpFetch.h], together with the
    properties of the asynchronous dispatch core that the specification
    lists. *)

From Stdlib Require Import ZArith List Bool Lia PeanoNat.
Import ListNotations.

(* ================================================================= *)
(** ** Pointers *)

(** The code only ever stores its pointers, hands them back and tests
    them against [NULL], so a nullable pointer is an [option]. *)
Definition NULL {A : Type} : option A := None.

(** [if (p)] on a pointer. *)
Definition non_null {A : Type} (p : option A) : bool :=
  match p with
  | Some _ => true
  | None => false
  end.

(* ================================================================= *)
(** * AsyncTimer *)

Module AsyncTimer.

(** The native handles are opaque; a handle is an identifier. *)
Definition ActionId := nat.
Definition TSCont := nat.
Definition TSAction := option ActionId.
Definition Controller := nat.

(** [if (n)] on an [int]. *)
Definition nonzero (n : Z) : bool := negb (Z.eqb n 0).

(* ================================================================= *)
(** ** AsyncTimerState *)

Inductive TimerType : Set :=
| TYPE_ONE_OFF
| TYPE_PERIODIC.

Definition TimerType_eqb (a b : TimerType) : bool :=
  match a, b with
  | TYPE_ONE_OFF, TYPE_ONE_OFF => true
  | TYPE_PERIODIC, TYPE_PERIODIC => true
  | _, _ => false
  end.

(** [struct atscppapi::AsyncTimerState].  The back pointer [timer_] is the
    identity of the one timer of the world below and carries no data. *)
Record AsyncTimerState : Set := mkState {
  cont_ : TSCont;
  type_ : TimerType;
  period_in_ms_ : Z;
  initial_period_in_ms_ : Z;
  initial_timer_action_ : TSAction;
  periodic_timer_action_ : TSAction;
  dispatch_controller_ : option Controller
}.

Definition set_cont_ (c : TSCont) (s : AsyncTimerState) : AsyncTimerState :=
  mkState c (type_ s) (period_in_ms_ s) (initial_period_in_ms_ s)
          (initial_timer_action_ s) (periodic_timer_action_ s)
          (dispatch_controller_ s).

Definition set_initial_timer_action_ (a : TSAction) (s : AsyncTimerState)
  : AsyncTimerState :=
  mkState (cont_ s) (type_ s) (period_in_ms_ s) (initial_period_in_ms_ s)
          a (periodic_timer_action_ s) (dispatch_controller_ s).

Definition set_periodic_timer_action_ (a : TSAction) (s : AsyncTimerState)
  : AsyncTimerState :=
  mkState (cont_ s) (type_ s) (period_in_ms_ s) (initial_period_in_ms_ s)
          (initial_timer_action_ s) a (dispatch_controller_ s).

Definition set_dispatch_controller_ (d : option Controller)
           (s : AsyncTimerState) : AsyncTimerState :=
  mkState (cont_ s) (type_ s) (period_in_ms_ s) (initial_period_in_ms_ s)
          (initial_timer_action_ s) (periodic_timer_action_ s) d.

(** The member initialiser list of [AsyncTimerState::AsyncTimerState]:
    both action handles start as [NULL], the controller is an empty
    [shared_ptr], and [cont_] is not initialised (shown as [0], which the
    host never hands out). *)
Definition AsyncTimerState_new (type : TimerType)
           (period_in_ms initial_period_in_ms : Z) : AsyncTimerState :=
  mkState 0 type period_in_ms initial_period_in_ms NULL NULL None.

(** How many of the two action handles are non-[NULL]. *)
Definition armed_handles (s : AsyncTimerState) : nat :=
  (if non_null (initial_timer_action_ s) then 1 else 0) +
  (if non_null (periodic_timer_action_ s) then 1 else 0).

(* ================================================================= *)
(** ** The world: host event loop, call log and the timer object *)

(** One pending host-scheduled callback. *)
Record Scheduled : Set := mkScheduled {
  sch_action : ActionId;
  sch_cont : TSCont;
  sch_every : bool;
  sch_ms : Z
}.

(** What the timer code asks of its collaborators, in program order. *)
Inductive Event : Set :=
| EvContCreate (c : TSCont)
| EvContSchedule (c : TSCont) (ms : Z) (a : ActionId)
| EvContScheduleEvery (c : TSCont) (ms : Z) (a : ActionId)
| EvActionCancel (a : ActionId)
| EvContDestroy (c : TSCont)
| EvDispatch (ctrl : Controller) (delivered : bool)
| EvDeleteState.

Definition is_cancel (e : Event) : bool :=
  match e with
  | EvActionCancel _ => true
  | _ => false
  end.

Definition is_dispatch (e : Event) : bool :=
  match e with
  | EvDispatch _ _ => true
  | _ => false
  end.

Definition is_delete (e : Event) : bool :=
  match e with
  | EvDeleteState => true
  | _ => false
  end.

(** [timer] is the heap cell of the [AsyncTimerState] (and of the
    [AsyncTimer] that owns it): [None] before [new] and after [delete].
    [history] is a ghost record of every value the cell has held, oldest
    first, one entry per write. *)
Record World : Set := mkWorld {
  next_action : ActionId;
  next_cont : TSCont;
  conts : list TSCont;
  pending : list Scheduled;
  log : list Event;
  timer : option AsyncTimerState;
  history : list AsyncTimerState
}.

(** The host before anything was created; handle [0] is never issued. *)
Definition boot : World := mkWorld 1 1 [] [] [] None [].

(* ================================================================= *)
(** ** A state monad with failure *)

(** [None] is undefined behaviour (use of a freed object, a call through
    an empty [shared_ptr]) or, for the host's delivery step, an event that
    cannot happen. *)
Definition M (A : Type) : Type := World -> option (A * World).

Definition ret {A : Type} (a : A) : M A := fun w => Some (a, w).

Definition bind {A B : Type} (m : M A) (k : A -> M B) : M B :=
  fun w =>
    match m w with
    | Some (a, w') => k a w'
    | None => None
    end.

Definition crash {A : Type} : M A := fun _ => None.

Declare Scope timer_scope.
Notation "x <- m ;; k" := (bind m (fun x => k))
  (at level 61, m at next level, right associativity) : timer_scope.
Notation "m ;; k" := (bind m (fun _ => k))
  (at level 61, right associativity) : timer_scope.
Notation "'when' b 'then' m" := (if b then m else ret tt)
  (at level 60, b at level 0) : timer_scope.
Open Scope timer_scope.

Definition exec {A : Type} (m : M A) (w : World) : option World :=
  match m w with
  | Some (_, w') => Some w'
  | None => None
  end.

Definition emit (e : Event) : M unit :=
  fun w =>
    Some (tt, mkWorld (next_action w) (next_cont w) (conts w) (pending w)
                      (log w ++ [e]) (timer w) (history w)).

(** [state->field] reads: dereferencing the state pointer. *)
Definition get_state : M AsyncTimerState :=
  fun w =>
    match timer w with
    | Some s => Some (s, w)
    | None => None
    end.

(** [state->field = v]. *)
Definition put_state (f : AsyncTimerState -> AsyncTimerState) : M unit :=
  fun w =>
    match timer w with
    | Some s =>
        Some (tt, mkWorld (next_action w) (next_cont w) (conts w) (pending w)
                          (log w) (Some (f s)) (history w ++ [f s]))
    | None => None
    end.

(** [new AsyncTimerState(...)]; the world holds one timer. *)
Definition new_state (s : AsyncTimerState) : M unit :=
  fun w =>
    match timer w with
    | Some _ => None
    | None =>
        Some (tt, mkWorld (next_action w) (next_cont w) (conts w) (pending w)
                          (log w) (Some s) (history w ++ [s]))
    end.

(** [delete state_]. *)
Definition delete_state : M unit :=
  fun w =>
    match timer w with
    | Some _ =>
        Some (tt, mkWorld (next_action w) (next_cont w) (conts w) (pending w)
                          (log w ++ [EvDeleteState]) None (history w))
    | None => None
    end.

(* ================================================================= *)
(** ** The host event loop *)

(** Modelled from the spec: the host primitives of [ts/ts.h]
    ([createContinuation], [scheduleOnce], [scheduleEvery], [cancel],
    [destroyContinuation]) are external to the repository.  A scheduling
    call registers one pending callback and returns a fresh, non-[NULL]
    action handle; a one-off action leaves the pending set when it is
    delivered, a periodic one stays; [cancel] removes the action from the
    pending set. *)
Definition TSContCreate : M TSCont :=
  fun w =>
    let c := next_cont w in
    Some (c, mkWorld (next_action w) (S c) (conts w ++ [c]) (pending w)
                     (log w ++ [EvContCreate c]) (timer w) (history w)).

Definition schedule (every : bool) (c : TSCont) (ms : Z) : M TSAction :=
  fun w =>
    let a := next_action w in
    Some (Some a,
          mkWorld (S a) (next_cont w) (conts w)
                  (pending w ++ [mkScheduled a c every ms])
                  (log w ++ [if every then EvContScheduleEvery c ms a
                             else EvContSchedule c ms a])
                  (timer w) (history w)).

Definition TSContSchedule : TSCont -> Z -> M TSAction := schedule false.
Definition TSContScheduleEvery : TSCont -> Z -> M TSAction := schedule true.

Definition without (a : ActionId) (l : list Scheduled) : list Scheduled :=
  filter (fun p => negb (Nat.eqb (sch_action p) a)) l.

Definition TSActionCancel (a : ActionId) : M unit :=
  fun w =>
    Some (tt, mkWorld (next_action w) (next_cont w) (conts w)
                      (without a (pending w))
                      (log w ++ [EvActionCancel a]) (timer w) (history w)).

Definition TSContDestroy (c : TSCont) : M unit :=
  fun w =>
    Some (tt, mkWorld (next_action w) (next_cont w)
                      (filter (fun c' => negb (Nat.eqb c' c)) (conts w))
                      (pending w)
                      (log w ++ [EvContDestroy c]) (timer w) (history w)).

(** The data pointer registered with [TSContDataSet] in the constructor. *)
Definition TSContDataGet (cont : TSCont) : M AsyncTimerState :=
  s <- get_state ;;
  if Nat.eqb cont (cont_ s) then ret s else crash.

(** The host takes the pending action [a] and yields the continuation to
    call; it fails when [a] is not pending. *)
Definition deliver (a : ActionId) : M TSCont :=
  fun w =>
    match find (fun p => Nat.eqb (sch_action p) a) (pending w) with
    | Some p =>
        Some (sch_cont p,
              mkWorld (next_action w) (next_cont w) (conts w)
                      (if sch_every p then pending w
                       else without a (pending w))
                      (log w) (timer w) (history w))
    | None => None
    end.

(** Modelled from the spec: [AsyncDispatchControllerBase::dispatch], of
    [atscppapi/Async.h]; it reports whether the receiver was alive and
    the event delivered.  The answer [delivered] is the environment's,
    and the call does not touch the timer.  A call through an empty
    [shared_ptr] is undefined. *)
Definition dispatch (d : option Controller) (delivered : bool) : M bool :=
  match d with
  | Some ctrl => emit (EvDispatch ctrl delivered) ;; ret delivered
  | None => crash
  end.

(* ================================================================= *)
(** ** AsyncTimer.cc *)

(** [AsyncTimer::AsyncTimer(Type, int, int)]. *)
Definition ctor (type : TimerType) (period_in_ms initial_period_in_ms : Z)
  : M unit :=
  new_state (AsyncTimerState_new type period_in_ms initial_period_in_ms) ;;
  c <- TSContCreate ;;
  put_state (set_cont_ c).

(** The two locals of [run] after its first [if]:
    [(one_off_timeout_in_ms, regular_timeout_in_ms)]. *)
Definition run_timeouts (s : AsyncTimerState) : Z * Z :=
  match type_ s with
  | TYPE_ONE_OFF => (period_in_ms_ s, 0%Z)
  | TYPE_PERIODIC => (initial_period_in_ms_ s, period_in_ms_ s)
  end.

(** [AsyncTimer::run(shared_ptr<AsyncDispatchControllerBase>)]. *)
Definition run (dispatch_controller : Controller) : M unit :=
  state_ <- get_state ;;
  let one_off_timeout_in_ms := fst (run_timeouts state_) in
  let regular_timeout_in_ms := snd (run_timeouts state_) in
  (if nonzero one_off_timeout_in_ms then
     a <- TSContSchedule (cont_ state_) one_off_timeout_in_ms ;;
     put_state (set_initial_timer_action_ a)
   else if nonzero regular_timeout_in_ms then
     a <- TSContScheduleEvery (cont_ state_) regular_timeout_in_ms ;;
     put_state (set_periodic_timer_action_ a)
   else ret tt) ;;
  put_state (set_dispatch_controller_ (Some dispatch_controller)).

(** [AsyncTimer::~AsyncTimer()]. *)
Definition dtor : M unit :=
  state_ <- get_state ;;
  match initial_timer_action_ state_ with
  | Some a => TSActionCancel a
  | None => ret tt
  end ;;
  match periodic_timer_action_ state_ with
  | Some a => TSActionCancel a
  | None => ret tt
  end ;;
  TSContDestroy (cont_ state_) ;;
  delete_state.

(** [handleTimerEvent(TSCont, TSEvent, void * )]; [delivered] is what
    [dispatch()] answers in this invocation. *)
Definition handleTimerEvent (cont : TSCont) (delivered : bool) : M Z :=
  state <- TSContDataGet cont ;;
  when (non_null (initial_timer_action_ state)) then (
    put_state (set_initial_timer_action_ NULL) ;;
    when (TimerType_eqb (type_ state) TYPE_PERIODIC) then (
      a <- TSContScheduleEvery (cont_ state) (period_in_ms_ state) ;;
      put_state (set_periodic_timer_action_ a))) ;;
  r <- dispatch (dispatch_controller_ state) delivered ;;
  when (negb r) then dtor ;;
  ret 0%Z.

(* ================================================================= *)
(** ** Executions *)

(** One callback: the host delivers the pending action [a] and calls the
    handler. *)
Definition fire (a : ActionId) (delivered : bool) : M Z :=
  cont <- deliver a ;;
  handleTimerEvent cont delivered.

Fixpoint fires (l : list (ActionId * bool)) : M unit :=
  match l with
  | [] => ret tt
  | (a, delivered) :: l' => fire a delivered ;; fires l'
  end.

(** Construction, [run] once, then the callbacks of [l] in order. *)
Definition lifecycle (type : TimerType) (period_in_ms initial_period_in_ms : Z)
           (ctrl : Controller) (l : list (ActionId * bool)) : M unit :=
  ctor type period_in_ms initial_period_in_ms ;;
  run ctrl ;;
  fires l.

Definition started (type : TimerType) (period_in_ms initial_period_in_ms : Z)
           (ctrl : Controller) : option World :=
  exec (ctor type period_in_ms initial_period_in_ms ;; run ctrl) boot.

(* ================================================================= *)
(** ** Invariant of the executions *)

(** A state of the object is fine for a timer of type [ty] when at most
    one handle is set and, for a one-off timer, the periodic one is not. *)
Definition ok_state (ty : TimerType) (s : AsyncTimerState) : Prop :=
  armed_handles s <= 1 /\
  (ty = TYPE_ONE_OFF -> periodic_timer_action_ s = NULL).

(** No cancellation and no [delete] has been logged. *)
Definition quiet (w : World) : Prop :=
  Forall (fun e => is_cancel e = false /\ is_delete e = false) (log w).

(** How the handles of a live timer relate to the host's pending set. *)
Inductive shape (ty : TimerType) (p : Z) (w : World) (s : AsyncTimerState)
  : Prop :=
| shape_initial (a : ActionId) (ms : Z) :
    initial_timer_action_ s = Some a ->
    periodic_timer_action_ s = NULL ->
    pending w = [mkScheduled a (cont_ s) false ms] ->
    a < next_action w ->
    shape ty p w s
| shape_periodic (a : ActionId) :
    ty = TYPE_PERIODIC ->
    initial_timer_action_ s = NULL ->
    periodic_timer_action_ s = Some a ->
    pending w = [mkScheduled a (cont_ s) true p] ->
    shape ty p w s
| shape_idle :
    initial_timer_action_ s = NULL ->
    periodic_timer_action_ s = NULL ->
    pending w = [] ->
    shape ty p w s.

Definition is_schedule_every (e : Event) : bool :=
  match e with
  | EvContScheduleEvery _ _ _ => true
  | _ => false
  end.

(** A one-off timer never asks the host for a periodic callback. *)
Definition ok_event (ty : TimerType) (e : Event) : Prop :=
  ty = TYPE_ONE_OFF -> is_schedule_every e = false.

(** The invariant of a timer that was constructed and run: every value
    its state ever had is fine, and so is every call it made; while it is
    alive its fixed fields are those it was built with, the controller is
    stored, nothing was cancelled, the last entry of the history is the
    current state, and the handles mirror the pending set; once it has
    deleted itself nothing is pending. *)
Definition inv (ty : TimerType) (p : Z) (ctrl : Controller) (w : World)
  : Prop :=
  Forall (ok_state ty) (history w) /\
  Forall (ok_event ty) (log w) /\
  match timer w with
  | Some s =>
      type_ s = ty /\ period_in_ms_ s = p /\
      dispatch_controller_ s = Some ctrl /\
      hd_error (rev (history w)) = Some s /\
      quiet w /\ shape ty p w s
  | None => pending w = []
  end.

(** The worlds a timer built with [(ty, p, ip)] can be in: after its
    construction, and after [run] followed by any number of callbacks. *)
Inductive reachable (ty : TimerType) (p ip : Z) (w : World) : Prop :=
| reach_constructed :
    exec (ctor ty p ip) boot = Some w -> reachable ty p ip w
| reach_running (ctrl : Controller) (l : list (ActionId * bool)) :
    exec (lifecycle ty p ip ctrl l) boot = Some w -> reachable ty p ip w.

(* ================================================================= *)
(** ** Vocabulary of the statements *)

(** The type and the two periods for which [run] selects a nonzero
    timeout. *)
Definition selects_timeout (ty : TimerType) (p ip : Z) : Prop :=
  match ty with
  | TYPE_ONE_OFF => p <> 0%Z
  | TYPE_PERIODIC => ip <> 0%Z \/ p <> 0%Z
  end.

(** What the first [if] block of [handleTimerEvent] makes of the state
    [s], [fresh] being the handle the host issues next: nothing when the
    initial handle is [NULL]; otherwise the initial handle is cleared
    and, for a periodic timer, the periodic one set. *)
Definition fired_state (s : AsyncTimerState) (fresh : ActionId)
  : AsyncTimerState :=
  match initial_timer_action_ s with
  | None => s
  | Some _ =>
      match type_ s with
      | TYPE_ONE_OFF => set_initial_timer_action_ NULL s
      | TYPE_PERIODIC =>
          set_periodic_timer_action_ (Some fresh)
            (set_initial_timer_action_ NULL s)
      end
  end.

Definition handle_list (a : TSAction) : list ActionId :=
  match a with
  | Some x => [x]
  | None => []
  end.

(** The handles of [s] that are not [NULL], initial first. *)
Definition live_handles (s : AsyncTimerState) : list ActionId :=
  handle_list (initial_timer_action_ s) ++
  handle_list (periodic_timer_action_ s).

(** The action [a] has fired: the timer, if alive, no longer holds it,
    and no cancellation of it has been logged. *)
Definition spent (a : ActionId) (w : World) : Prop :=
  ~ In (EvActionCancel a) (log w) /\
  forall s, timer w = Some s ->
            initial_timer_action_ s = NULL /\
            periodic_timer_action_ s <> Some a.

(* ================================================================= *)
(** ** Sample executions *)

(** A periodic timer with [period_ms = 200] and
    [initial_period_ms = 50], constructed and run with controller [7]. *)
Definition periodic_started : World :=
  Eval vm_compute in
    match started TYPE_PERIODIC 200 50 7 with
    | Some w => w
    | None => boot
    end.

(** A one-off timer with [period_ms = 100] after [run] and its one
    callback, the receiver being alive. *)
Definition one_off_fired : World :=
  Eval vm_compute in
    match exec (lifecycle TYPE_ONE_OFF 100 0 7 [(1, true)]) boot with
    | Some w => w
    | None => boot
    end.

(** The periodic timer above after its first three callbacks, the
    receiver alive at each. *)
Definition periodic_fired3 : World :=
  Eval vm_compute in
    match exec (lifecycle TYPE_PERIODIC 200 50 7
                          [(1, true); (2, true); (2, true)]) boot with
    | Some w => w
    | None => boot
    end.

(** The periodic timer above after its initial callback and one periodic
    callback. *)
Definition periodic_fired2 : World :=
  Eval vm_compute in
    match exec (fires [(1, true); (2, true)]) periodic_started with
    | Some w => w
    | None => boot
    end.

(* ================================================================= *)
(** ** Vocabulary of the further properties *)

Definition is_schedule_once (e : Event) : bool :=
  match e with
  | EvContSchedule _ _ _ => true
  | _ => false
  end.

(** The fields of the state that the constructor fills from its
    arguments. *)
Definition config (ty : TimerType) (p ip : Z) (s : AsyncTimerState) : Prop :=
  type_ s = ty /\ period_in_ms_ s = p /\ initial_period_in_ms_ s = ip.

(** The call of [dispatch()] made by the callback [x]. *)
Definition answer_event (ctrl : Controller) (x : ActionId * bool) : Event :=
  EvDispatch ctrl (snd x).


(** The host has not yet issued the continuation it will create next. *)
Definition fresh_conts (w : World) : Prop :=
  Forall (fun c => c < next_cont w) (conts w).

(** The scheduling calls logged so far are at most one of each kind,
    and none of the periodic kind while the initial handle is set. *)
Definition scheduled_once_each (w : World) : Prop :=
  length (filter is_schedule_once (log w)) <= 1 /\
  length (filter is_schedule_every (log w)) <= 1 /\
  forall s, timer w = Some s ->
            initial_timer_action_ s <> NULL ->
            filter is_schedule_every (log w) = [].

End AsyncTimer.

(* ================================================================= *)
(** * AsyncHttpFetch *)

Module AsyncHttpFetch.

(** [enum Result] of [AsyncHttpFetch.h]. *)
Inductive Result : Set :=
| RESULT_SUCCESS
| RESULT_TIMEOUT
| RESULT_FAILURE.

(** The enumerators' values: [RESULT_SUCCESS = 10000] and the next two. *)
Definition Result_value (r : Result) : Z :=
  match r with
  | RESULT_SUCCESS => 10000
  | RESULT_TIMEOUT => 10001
  | RESULT_FAILURE => 10002
  end.

(** Modelled from the spec: [AsyncHttpFetchState], declared but not
    defined in [AsyncHttpFetch.h].  It holds a result code, [None] while
    the fetch is pending, and, once complete, a body buffer as a pointer
    and a length, [(NULL, 0)] on failure.  The request and the response
    object play no part here and are left out.  A pointer to a buffer is
    shown by the bytes it points to. *)
Record AsyncHttpFetchState : Set := mkFetchState {
  result_ : option Result;
  body_ : option (list Byte.byte);
  body_size_ : N
}.

(** Modelled from the spec: the state of a fetch that was constructed
    and not completed. *)
Definition pending_fetch : AsyncHttpFetchState := mkFetchState None NULL 0.

(** Modelled from the spec: the completion callback of the host's fetch
    facility, which is called with a result code and a view of the body
    and whose definition ([AsyncHttpFetch.cc]) is missing.  A successful
    completion stores the view; any other stores [(NULL, 0)]. *)
Definition complete (result : Result) (payload : list Byte.byte)
           (st : AsyncHttpFetchState) : AsyncHttpFetchState :=
  match result with
  | RESULT_SUCCESS =>
      mkFetchState (Some result) (Some payload) (N.of_nat (length payload))
  | RESULT_TIMEOUT | RESULT_FAILURE =>
      mkFetchState (Some result) NULL 0
  end.

(** Modelled from the spec: [AsyncHttpFetch::getResult], declared in
    [AsyncHttpFetch.h] and defined in the missing [AsyncHttpFetch.cc]. *)
Definition getResult (st : AsyncHttpFetchState) : option Result :=
  result_ st.

(** Modelled from the spec: [AsyncHttpFetch::getResponseBody], declared
    in [AsyncHttpFetch.h] and defined in the missing [AsyncHttpFetch.cc];
    the pair is what the two output arguments [body] and [body_size] are
    set to. *)
Definition getResponseBody (st : AsyncHttpFetchState)
  : option (list Byte.byte) * N :=
  (body_ st, body_size_ st).

End AsyncHttpFetch.

(* ================================================================= *)
(** * Proofs: AsyncTimer *)

Import AsyncTimer.

(** ** Basic facts about the monad and the executions *)

Lemma exec_seq (A B : Type) (m : M A) (k : M B) (w : World) :
  exec (m ;; k) w =
  match exec m w with
  | Some w' => exec k w'
  | None => None
  end.
Proof.
  unfold exec, bind. destruct (m w) as [[a w']|]; reflexivity.
Qed.

Lemma lifecycle_started ty p ip ctrl l :
  exec (lifecycle ty p ip ctrl l) boot =
  match started ty p ip ctrl with
  | Some w => exec (fires l) w
  | None => None
  end.
Proof.
  unfold lifecycle, started, exec, bind.
  destruct (ctor ty p ip boot) as [[u w1]|]; [|reflexivity].
  destruct (run ctrl w1) as [[u' w2]|]; reflexivity.
Qed.

Lemma fires_app l l' w :
  exec (fires (l ++ l')) w =
  match exec (fires l) w with
  | Some w' => exec (fires l') w'
  | None => None
  end.
Proof.
  revert w. induction l as [|[a d] l IH]; intro w.
  - reflexivity.
  - simpl fires. rewrite !exec_seq.
    destruct (exec (fire a d) w) as [w1|]; [apply IH | reflexivity].
Qed.

Lemma fires_cons a d l w :
  exec (fires ((a, d) :: l)) w =
  match exec (fire a d) w with
  | Some w' => exec (fires l) w'
  | None => None
  end.
Proof.
  simpl fires. apply exec_seq.
Qed.

Lemma armed_handles_cases (s : AsyncTimerState) :
  armed_handles s <= 1 <->
  (initial_timer_action_ s = NULL \/ periodic_timer_action_ s = NULL).
Proof.
  unfold armed_handles, NULL.
  destruct (initial_timer_action_ s), (periodic_timer_action_ s);
    simpl; split; intro H; try lia; auto.
  destruct H; discriminate.
Qed.

Lemma shape_ok ty p w s : shape ty p w s -> ok_state ty s.
Proof.
  intros [a ms Hi Hp _ _ | a Hty Hi Hp _ | Hi Hp _]; split;
    try (apply armed_handles_cases; auto); auto.
  intro; congruence.
Qed.

(** *** An idle host *)

Lemma fire_nothing_pending a d w : pending w = [] -> fire a d w = None.
Proof.
  intro H. unfold fire, deliver, bind. rewrite H. reflexivity.
Qed.

Lemma fires_nothing_pending l w w' :
  pending w = [] -> exec (fires l) w = Some w' -> l = [] /\ w' = w.
Proof.
  intros Hp H. destruct l as [|[a d] l].
  - injection H as <-. auto.
  - rewrite fires_cons in H. unfold exec at 1 in H.
    rewrite fire_nothing_pending in H by exact Hp. discriminate H.
Qed.

(** *** [run] after the constructor *)

Ltac ok_states :=
  repeat first
    [ apply Forall_nil
    | apply Forall_cons
    | apply Forall_app; split
    | assumption
    | split; [ cbv; lia | intro; first [ reflexivity | discriminate ] ] ].

Ltac ok_events :=
  repeat first
    [ apply Forall_nil
    | apply Forall_cons
    | apply Forall_app; split
    | assumption
    | intro; first [ reflexivity | discriminate ] ].

Ltac the_shape :=
  first
    [ eapply shape_idle; reflexivity
    | eapply shape_initial; simpl; first [ reflexivity | lia ]
    | eapply shape_periodic; reflexivity ].

Ltac is_quiet :=
  unfold quiet in *; simpl;
  repeat first
    [ apply Forall_nil | apply Forall_cons | apply Forall_app; split
    | assumption | split; reflexivity ].

Ltac live_inv :=
  split; [ simpl; solve [ok_states] | ];
  split; [ simpl; solve [ok_events] | ];
  simpl; repeat split;
  first [ reflexivity
        | rewrite ?rev_unit; reflexivity
        | solve [is_quiet]
        | solve [the_shape] ].

Ltac dead_inv :=
  split; [ simpl; solve [ok_states] | ];
  split; [ simpl; solve [ok_events] | ];
  simpl; rewrite ?Nat.eqb_refl; reflexivity.

Lemma started_inv ty p ip ctrl w :
  started ty p ip ctrl = Some w -> inv ty p ctrl w.
Proof.
  unfold started. intro H.
  destruct ty; unfold exec, ctor, run, bind, nonzero in H; simpl in H.
  - destruct (Z.eqb_spec p 0); simpl in H; injection H as <-; live_inv.
  - destruct (Z.eqb_spec ip 0); simpl in H;
      [destruct (Z.eqb_spec p 0); simpl in H|];
      injection H as <-; live_inv.
Qed.

(** *** One callback *)

Ltac step_code H :=
  unfold exec, fire, deliver, handleTimerEvent, TSContDataGet, dtor,
    dispatch, bind in H;
  simpl in H; rewrite ?Nat.eqb_refl in H; simpl in H.

(** Case analysis of one callback from a world that satisfies the
    invariant: the world is opened, the handler is run on each of the
    three shapes, and the resulting world replaces [w'] in the goal. *)
Ltac fire_cases Hinv H a d :=
  let Hh := fresh "Hh" in
  let He := fresh "He" in
  let Hl := fresh "Hl" in
  let Hlast := fresh "Hlast" in
  let Hq := fresh "Hq" in
  let Hs := fresh "Hs" in
  destruct Hinv as (Hh & He & Hl);
  match type of H with
  | exec _ ?w = _ =>
      let s := fresh "s" in
      let pe := fresh "pe" in
      destruct w as [?na ?nc ?cs pe ?lg [s|] ?hi]; simpl in *;
      [ destruct s as [?c ?ty' ?p' ?ip' ?ia ?pa ?dc]; simpl in *;
        destruct Hl as (-> & -> & -> & Hlast & Hq & Hs);
        destruct Hs as [?a0 ?ms ?Hi ?Hp ?Hpe ?Hlt
                       | ?a0 ?Hty ?Hi ?Hp ?Hpe
                       | ?Hi ?Hp ?Hpe];
        simpl in *; subst;
        [ step_code H;
          match type of H with
          | context [Nat.eqb ?x a] =>
              destruct (Nat.eqb_spec x a); [subst x | discriminate H]
          end;
          step_code H;
          match goal with
          | ty : TimerType |- _ => destruct ty
          end;
          destruct d; simpl in H; injection H as <-
        | step_code H;
          match type of H with
          | context [Nat.eqb ?x a] =>
              destruct (Nat.eqb_spec x a); [subst x | discriminate H]
          end;
          step_code H;
          destruct d; simpl in H; injection H as <-
        | discriminate H ]
      | subst pe; discriminate H ]
  end.

Lemma fire_inv ty p ctrl a d w w' :
  inv ty p ctrl w -> exec (fire a d) w = Some w' -> inv ty p ctrl w'.
Proof.
  intros Hinv H.
  fire_cases Hinv H a d; first [ live_inv | dead_inv ].
Qed.

Lemma fires_inv ty p ctrl l w w' :
  inv ty p ctrl w -> exec (fires l) w = Some w' -> inv ty p ctrl w'.
Proof.
  revert w. induction l as [|[a d] l IH]; intros w Hw H.
  - injection H as <-. exact Hw.
  - rewrite fires_cons in H.
    destruct (exec (fire a d) w) as [w1|] eqn:E; [|discriminate H].
    eapply IH; [eapply fire_inv; eassumption | exact H].
Qed.

Lemma lifecycle_inv ty p ip ctrl l w :
  exec (lifecycle ty p ip ctrl l) boot = Some w -> inv ty p ctrl w.
Proof.
  rewrite lifecycle_started.
  destruct (started ty p ip ctrl) as [w0|] eqn:E; [|discriminate].
  apply fires_inv. eapply started_inv; exact E.
Qed.

(** *** The scenarios of the specification *)

(** One-off timer, delay 100 ms, receiver alive: one dispatch, then the
    caller destroys the timer, which cancels nothing. *)
Example scenario_one_off :
  option_map log (exec (lifecycle TYPE_ONE_OFF 100 0 7 [(1, true)] ;; dtor)
                       boot) =
  Some [EvContCreate 1; EvContSchedule 1 100 1; EvDispatch 7 true;
        EvContDestroy 1; EvDeleteState].
Proof. reflexivity. Qed.

(** Periodic timer, initial 50 ms, period 200 ms, receiver alive for three
    fires and dead at the fourth: four dispatches, the timer deletes
    itself in the fourth callback and a fifth cannot be delivered. *)
Example scenario_periodic :
  option_map log
    (exec (lifecycle TYPE_PERIODIC 200 50 7
                     [(1, true); (2, true); (2, true); (2, false)]) boot) =
  Some [EvContCreate 1; EvContSchedule 1 50 1; EvContScheduleEvery 1 200 2;
        EvDispatch 7 true; EvDispatch 7 true; EvDispatch 7 true;
        EvDispatch 7 false; EvActionCancel 2; EvContDestroy 1;
        EvDeleteState] /\
  exec (lifecycle TYPE_PERIODIC 200 50 7
                  [(1, true); (2, true); (2, true); (2, false); (2, true)])
       boot = None.
Proof. split; reflexivity. Qed.

(* ================================================================= *)
(** ** What [run] arms *)

(** C1, as stated, fails: a one-off timer with [period_ms = 0] is
    constructed and run, and afterwards neither action handle is set. *)
Lemma run_one_off_zero_arms_none :
  exists w s,
    started TYPE_ONE_OFF 0 0 7 = Some w /\
    timer w = Some s /\
    initial_timer_action_ s = NULL /\
    periodic_timer_action_ s = NULL /\
    armed_handles s <> 1.
Proof.
  do 2 eexists. split; [reflexivity|].
  split; [reflexivity|]. repeat split. discriminate.
Qed.

(** C1, amended: for every type and every pair of periods, [run] after
    construction succeeds and leaves at most one of the two action handles
    set, never two; exactly one is set precisely when the timeout that
    [run] selects is nonzero, and the host then holds exactly that many
    pending callbacks. *)
Theorem run_arms_at_most_one (ty : TimerType) (p ip : Z) (ctrl : Controller) :
  exists w s,
    started ty p ip ctrl = Some w /\
    timer w = Some s /\
    armed_handles s <= 1 /\
    (armed_handles s = 1 <-> selects_timeout ty p ip) /\
    length (pending w) = armed_handles s.
Proof.
  unfold started, selects_timeout.
  destruct ty; unfold exec, ctor, run, bind, nonzero; simpl.
  - destruct (Z.eqb_spec p 0); simpl; do 2 eexists;
      (split; [reflexivity|]); (split; [reflexivity|]);
      cbv [armed_handles]; simpl; repeat split; try lia; try tauto;
      discriminate.
  - destruct (Z.eqb_spec ip 0); simpl;
      [destruct (Z.eqb_spec p 0); simpl|];
      do 2 eexists;
      (split; [reflexivity|]); (split; [reflexivity|]);
      cbv [armed_handles]; simpl; repeat split; try lia; try tauto;
      intros; try discriminate.
Qed.

(** C2, as stated, fails in its last case: a periodic timer with
    [initial_period_ms = 0] and [period_ms = 0] is run and no periodic
    action is armed, at once or at all. *)
Lemma run_periodic_zero_period_arms_none :
  exists w s,
    started TYPE_PERIODIC 0 0 7 = Some w /\
    timer w = Some s /\
    periodic_timer_action_ s = NULL /\
    pending w = [] /\
    forall c ms a, ~ In (EvContScheduleEvery c ms a) (log w).
Proof.
  do 2 eexists. split; [reflexivity|]. split; [reflexivity|].
  repeat split. simpl. intros c ms a [H|[]]. discriminate H.
Qed.

(** C2, amended: [run] takes [period_ms] as the one-off timeout of a
    one-off timer and never reads [initial_period_ms] for it; when that
    period is nonzero it schedules one single callback after [period_ms],
    and the fire of it schedules nothing more.  For a periodic timer with
    nonzero [initial_period_ms], [run] schedules a single callback after
    [initial_period_ms], and the fire of it arms the periodic action
    every [period_ms].  For a periodic timer with [initial_period_ms = 0]
    and nonzero [period_ms], [run] arms the periodic action every
    [period_ms] at once. *)
Theorem run_selects_delay (p ip : Z) (ctrl : Controller) :
  (run_timeouts (AsyncTimerState_new TYPE_ONE_OFF p ip) = (p, 0%Z) /\
   (p <> 0%Z ->
    exists w w',
      started TYPE_ONE_OFF p ip ctrl = Some w /\
      log w = [EvContCreate 1; EvContSchedule 1 p 1] /\
      pending w = [mkScheduled 1 1 false p] /\
      exec (fire 1 true) w = Some w' /\
      log w' = log w ++ [EvDispatch ctrl true] /\
      pending w' = [])) /\
  (ip <> 0%Z ->
   exists w w',
     started TYPE_PERIODIC p ip ctrl = Some w /\
     log w = [EvContCreate 1; EvContSchedule 1 ip 1] /\
     pending w = [mkScheduled 1 1 false ip] /\
     exec (fire 1 true) w = Some w' /\
     log w' = log w ++ [EvContScheduleEvery 1 p 2; EvDispatch ctrl true] /\
     pending w' = [mkScheduled 2 1 true p]) /\
  (ip = 0%Z -> p <> 0%Z ->
   exists w,
     started TYPE_PERIODIC p ip ctrl = Some w /\
     log w = [EvContCreate 1; EvContScheduleEvery 1 p 1] /\
     pending w = [mkScheduled 1 1 true p]).
Proof.
  unfold started, exec, ctor, run, bind, nonzero; simpl.
  repeat split.
  - intro Hp. destruct (Z.eqb_spec p 0) as [->|_]; [contradiction|].
    simpl. do 2 eexists. repeat split.
  - intro Hip. destruct (Z.eqb_spec ip 0) as [->|_]; [contradiction|].
    simpl. do 2 eexists. repeat split.
  - intros -> Hp. simpl.
    destruct (Z.eqb_spec p 0) as [->|_]; [contradiction|].
    simpl. eexists. repeat split.
Qed.

Lemma run_selects_delay_witness :
  (exists w w',
      started TYPE_ONE_OFF 100 0 7 = Some w /\
      log w = [EvContCreate 1; EvContSchedule 1 100 1] /\
      pending w = [mkScheduled 1 1 false 100] /\
      exec (fire 1 true) w = Some w' /\
      log w' = log w ++ [EvDispatch 7 true] /\
      pending w' = []) /\
  (exists w w',
     started TYPE_PERIODIC 200 50 7 = Some w /\
     log w = [EvContCreate 1; EvContSchedule 1 50 1] /\
     pending w = [mkScheduled 1 1 false 50] /\
     exec (fire 1 true) w = Some w' /\
     log w' = log w ++ [EvContScheduleEvery 1 200 2; EvDispatch 7 true] /\
     pending w' = [mkScheduled 2 1 true 200]) /\
  (exists w,
     started TYPE_PERIODIC 200 0 7 = Some w /\
     log w = [EvContCreate 1; EvContScheduleEvery 1 200 1] /\
     pending w = [mkScheduled 1 1 true 200]).
Proof.
  split; [|split].
  - apply (proj2 (proj1 (run_selects_delay 100 0 7))). discriminate.
  - apply (proj1 (proj2 (run_selects_delay 200 50 7))). discriminate.
  - apply (proj2 (proj2 (run_selects_delay 200 0 7))).
    + reflexivity.
    + discriminate.
Defined.

(* ================================================================= *)
(** ** A zero timeout *)

(** C10: when the timeout selected by [run] is zero, [run] succeeds, asks
    nothing of the host, leaves both handles [NULL], stores the
    controller all the same, and the host has no callback to deliver: no
    fire can follow, whatever the action and the receiver's answer. *)
Theorem run_zero_timeout (ty : TimerType) (p ip : Z) (ctrl : Controller) :
  (ty = TYPE_ONE_OFF /\ p = 0%Z) \/
  (ty = TYPE_PERIODIC /\ ip = 0%Z /\ p = 0%Z) ->
  exists w s,
    started ty p ip ctrl = Some w /\
    timer w = Some s /\
    initial_timer_action_ s = NULL /\
    periodic_timer_action_ s = NULL /\
    dispatch_controller_ s = Some ctrl /\
    log w = [EvContCreate (cont_ s)] /\
    pending w = [] /\
    (forall a d, fire a d w = None) /\
    (forall l w', exec (lifecycle ty p ip ctrl l) boot = Some w' ->
                  l = [] /\ w' = w).
Proof.
  intros [[-> ->] | (-> & -> & ->)];
    (do 2 eexists; split; [reflexivity|]; split; [reflexivity|];
     do 5 (split; [reflexivity|]);
     split;
     [ intros a d; apply fire_nothing_pending; reflexivity
     | intros l w' H; rewrite lifecycle_started in H;
       eapply fires_nothing_pending; [|exact H]; reflexivity ]).
Qed.

Lemma run_zero_timeout_witness :
  exists w s,
    started TYPE_PERIODIC 0 0 7 = Some w /\
    timer w = Some s /\
    initial_timer_action_ s = NULL /\
    periodic_timer_action_ s = NULL /\
    dispatch_controller_ s = Some 7 /\
    log w = [EvContCreate (cont_ s)] /\
    pending w = [] /\
    (forall a d, fire a d w = None) /\
    (forall l w', exec (lifecycle TYPE_PERIODIC 0 0 7 l) boot = Some w' ->
                  l = [] /\ w' = w).
Proof.
  apply (run_zero_timeout TYPE_PERIODIC 0 0 7).
  right. repeat split; reflexivity.
Defined.

(* ================================================================= *)
(** ** At most one handle at any time *)

Lemma inv_history ty p ctrl w :
  inv ty p ctrl w -> Forall (ok_state ty) (history w).
Proof. intros (H & _). exact H. Qed.

Lemma inv_current ty p ctrl w s :
  inv ty p ctrl w -> timer w = Some s ->
  ok_state ty s /\ hd_error (rev (history w)) = Some s.
Proof.
  intros (_ & _ & H) E. rewrite E in H.
  destruct H as (_ & _ & _ & Hl & _ & Hs).
  split; [eapply shape_ok; exact Hs | exact Hl].
Qed.

Lemma reachable_ok ty p ip w :
  reachable ty p ip w ->
  Forall (ok_state ty) (history w) /\
  Forall (ok_event ty) (log w) /\
  forall s, timer w = Some s ->
            ok_state ty s /\ hd_error (rev (history w)) = Some s.
Proof.
  intros [H | ctrl l H].
  - injection H as <-. split; [|split].
    + simpl. ok_states.
    + simpl. ok_events.
    + intros s E. injection E as <-. split; [|reflexivity].
      split; [cbv; lia | reflexivity].
  - apply lifecycle_inv in H. split; [|split].
    + eapply inv_history; exact H.
    + destruct H as (_ & H & _). exact H.
    + intros s E. eapply inv_current; eassumption.
Qed.

(** The writes of one callback that finds the initial action pending on
    a periodic timer: first the initial handle is cleared, then the
    periodic one is set. *)
Lemma fire_initial_periodic_history a d w w' s :
  timer w = Some s ->
  non_null (initial_timer_action_ s) = true ->
  type_ s = TYPE_PERIODIC ->
  exec (fire a d) w = Some w' ->
  history w' =
  history w ++
    [set_initial_timer_action_ NULL s;
     set_periodic_timer_action_ (Some (next_action w))
       (set_initial_timer_action_ NULL s)].
Proof.
  intros E Hi Hty H.
  destruct w as [na nc cs pe lg t hi]; simpl in E; subst t.
  destruct s as [c ty p ip [ia|] pa [ctrl|]]; simpl in *;
    try discriminate Hi; subst ty.
  - unfold exec, fire, deliver, bind in H; simpl in H.
    destruct (find _ pe) as [q|]; [|discriminate H].
    step_code H.
    destruct (Nat.eqb (sch_cont q) c); [|discriminate H].
    simpl in H.
    destruct d; simpl in H; injection H as <-; simpl;
      rewrite <- app_assoc; reflexivity.
  - unfold exec, fire, deliver, bind in H; simpl in H.
    destruct (find _ pe) as [q|]; [|discriminate H].
    step_code H.
    destruct (Nat.eqb (sch_cont q) c); discriminate H.
Qed.

(** C3: in every reachable world of a timer -- after construction, after
    [run], after any number of callbacks -- every value the state has
    ever held, the current one included, has at most one of the two
    action handles set; and the callback that finds the initial action
    pending on a periodic timer first writes the state with both handles
    [NULL] and only then the state with the periodic handle set. *)
Theorem at_most_one_handle (ty : TimerType) (p ip : Z) (w : World) :
  reachable ty p ip w ->
  Forall (fun s => armed_handles s <= 1) (history w) /\
  (forall s, timer w = Some s ->
             armed_handles s <= 1 /\ hd_error (rev (history w)) = Some s) /\
  (forall s a d w',
      timer w = Some s ->
      non_null (initial_timer_action_ s) = true ->
      type_ s = TYPE_PERIODIC ->
      exec (fire a d) w = Some w' ->
      exists s1 s2,
        history w' = history w ++ [s1; s2] /\
        s1 = set_initial_timer_action_ NULL s /\
        armed_handles s1 = 0 /\
        s2 = set_periodic_timer_action_ (Some (next_action w)) s1 /\
        armed_handles s2 = 1).
Proof.
  intro R. destruct (reachable_ok ty p ip w R) as (Hh & _ & Hc).
  split; [|split].
  - eapply Forall_impl; [|exact Hh]. intros s [H _]. exact H.
  - intros s E. destruct (Hc s E) as [[H _] Hl]. auto.
  - intros s a d w' E Hi Hty H.
    destruct (Hc s E) as [[Hs _] _].
    apply armed_handles_cases in Hs.
    do 2 eexists. split.
    + eapply fire_initial_periodic_history; eassumption.
    + split; [reflexivity|].
      destruct (initial_timer_action_ s) eqn:Ei; [|discriminate Hi].
      destruct Hs as [Hs|Hs]; [discriminate Hs|].
      unfold armed_handles; simpl. rewrite Hs. auto.
Qed.

Lemma at_most_one_handle_witness :
  Forall (fun s => armed_handles s <= 1) (history periodic_started) /\
  (forall s, timer periodic_started = Some s ->
             armed_handles s <= 1 /\
             hd_error (rev (history periodic_started)) = Some s) /\
  (forall s a d w',
      timer periodic_started = Some s ->
      non_null (initial_timer_action_ s) = true ->
      type_ s = TYPE_PERIODIC ->
      exec (fire a d) periodic_started = Some w' ->
      exists s1 s2,
        history w' = history periodic_started ++ [s1; s2] /\
        s1 = set_initial_timer_action_ NULL s /\
        armed_handles s1 = 0 /\
        s2 = set_periodic_timer_action_
               (Some (next_action periodic_started)) s1 /\
        armed_handles s2 = 1).
Proof.
  apply (at_most_one_handle TYPE_PERIODIC 200 50 periodic_started).
  apply reach_running with (ctrl := 7) (l := []).
  reflexivity.
Defined.

(* ================================================================= *)
(** ** One-off timers *)

(** C9: for a timer constructed with [TYPE_ONE_OFF], in every reachable
    world the periodic handle is [NULL] in every value the state has ever
    held, the current one included, and no periodic callback was ever
    requested from the host: neither [run] nor any callback arms it. *)
Theorem one_off_never_periodic (p ip : Z) (w : World) :
  reachable TYPE_ONE_OFF p ip w ->
  Forall (fun s => periodic_timer_action_ s = NULL) (history w) /\
  (forall s, timer w = Some s -> periodic_timer_action_ s = NULL) /\
  (forall c ms a, ~ In (EvContScheduleEvery c ms a) (log w)).
Proof.
  intro R. destruct (reachable_ok TYPE_ONE_OFF p ip w R) as (Hh & He & Hc).
  split; [|split].
  - eapply Forall_impl; [|exact Hh]. intros s [_ H]. exact (H eq_refl).
  - intros s E. destruct (Hc s E) as [[_ H] _]. exact (H eq_refl).
  - intros c ms a Hin.
    rewrite Forall_forall in He.
    specialize (He _ Hin eq_refl). discriminate He.
Qed.

Lemma one_off_never_periodic_witness :
  Forall (fun s => periodic_timer_action_ s = NULL) (history one_off_fired) /\
  (forall s, timer one_off_fired = Some s ->
             periodic_timer_action_ s = NULL) /\
  (forall c ms a, ~ In (EvContScheduleEvery c ms a) (log one_off_fired)).
Proof.
  apply (one_off_never_periodic 100 0 one_off_fired).
  apply reach_running with (ctrl := 7) (l := [(1, true)]).
  reflexivity.
Defined.

(* ================================================================= *)
(** ** Periodic timers *)

Lemma fire_periodic_armed ty p ctrl a d w w' :
  inv ty p ctrl w -> exec (fire a d) w = Some w' ->
  ty = TYPE_PERIODIC ->
  (forall s, timer w' = Some s ->
     initial_timer_action_ s = NULL /\
     exists a',
       periodic_timer_action_ s = Some a' /\
       pending w' = [mkScheduled a' (cont_ s) true p]) /\
  (timer w' = None -> pending w' = []).
Proof.
  intros Hinv H.
  fire_cases Hinv H a d; intro Hty; try discriminate Hty;
    (split;
     [ intros s E; simpl in E;
       first [ discriminate E
             | injection E as <-; simpl;
               split; [reflexivity | eexists; split; reflexivity] ]
     | intro E; simpl in E;
       first [ discriminate E
             | simpl; rewrite ?Nat.eqb_refl; reflexivity ] ]).
Qed.

(** C6: for a periodic timer, after [run] and at least one callback, a
    timer that is still alive has its initial handle [NULL] and its
    periodic handle set, and the host holds exactly one pending action,
    that periodic one at [period_ms]; this is so after the first
    callback and after every later one.  A timer that has deleted itself
    has left nothing pending. *)
Theorem periodic_one_handle_after_fire
        (p ip : Z) (ctrl : Controller) (l : list (ActionId * bool))
        (w : World) :
  l <> [] ->
  exec (lifecycle TYPE_PERIODIC p ip ctrl l) boot = Some w ->
  (forall s, timer w = Some s ->
     initial_timer_action_ s = NULL /\
     armed_handles s = 1 /\
     exists a,
       periodic_timer_action_ s = Some a /\
       pending w = [mkScheduled a (cont_ s) true p]) /\
  (timer w = None -> pending w = []).
Proof.
  intros Hl H.
  destruct (exists_last Hl) as (l0 & [a d] & ->).
  rewrite lifecycle_started in H.
  destruct (started TYPE_PERIODIC p ip ctrl) as [w0|] eqn:E0;
    [|discriminate H].
  rewrite fires_app in H.
  destruct (exec (fires l0) w0) as [w1|] eqn:E1; [|discriminate H].
  rewrite fires_cons in H.
  destruct (exec (fire a d) w1) as [w2|] eqn:E2; [|discriminate H].
  injection H as <-.
  assert (Hinv : inv TYPE_PERIODIC p ctrl w1).
  { eapply fires_inv; [eapply started_inv; exact E0 | exact E1]. }
  destruct (fire_periodic_armed _ _ _ a d _ _ Hinv E2 eq_refl) as [Hlive Hdead].
  split; [|exact Hdead].
  intros s E. destruct (Hlive s E) as (Hi & a' & Hp & Hpe).
  split; [exact Hi|]. split.
  - unfold armed_handles. rewrite Hi, Hp. reflexivity.
  - exists a'. auto.
Qed.

Lemma periodic_one_handle_after_fire_witness :
  (forall s, timer periodic_fired3 = Some s ->
     initial_timer_action_ s = NULL /\
     armed_handles s = 1 /\
     exists a,
       periodic_timer_action_ s = Some a /\
       pending periodic_fired3 = [mkScheduled a (cont_ s) true 200]) /\
  (timer periodic_fired3 = None -> pending periodic_fired3 = []).
Proof.
  apply (periodic_one_handle_after_fire
           200 50 7 [(1, true); (2, true); (2, true)]).
  - discriminate.
  - vm_compute. reflexivity.
Defined.

(* ================================================================= *)
(** ** The callback and the receiver's answer *)

Lemma quiet_no_delete (lg : list Event) :
  Forall (fun e => is_cancel e = false /\ is_delete e = false) lg ->
  filter is_delete lg = [].
Proof.
  induction 1 as [|e lg [_ He] _ IH]; simpl.
  - reflexivity.
  - rewrite He. exact IH.
Qed.

Lemma fire_total ty p ctrl a d w :
  inv ty p ctrl w ->
  In a (map sch_action (pending w)) ->
  exists w', exec (fire a d) w = Some w'.
Proof.
  intros (Hh & He & Hl) Hin.
  destruct w as [na nc cs pe lg [s|] hi]; simpl in *.
  2:{ subst pe. destruct Hin. }
  destruct s as [c ty' p' ip' ia pa dc]; simpl in *.
  destruct Hl as (-> & -> & -> & Hlast & Hq & Hs).
  destruct Hs as [a0 ms Hi Hp Hpe Hlt | a0 Hty Hi Hp Hpe | Hi Hp Hpe];
    simpl in *; subst; simpl in Hin.
  - destruct Hin as [<-|[]].
    unfold exec, fire, deliver, handleTimerEvent, TSContDataGet, dtor,
      dispatch, bind; simpl; repeat (rewrite Nat.eqb_refl; simpl).
    destruct ty, d; simpl; eexists; reflexivity.
  - destruct Hin as [<-|[]].
    unfold exec, fire, deliver, handleTimerEvent, TSContDataGet, dtor,
      dispatch, bind; simpl; repeat (rewrite Nat.eqb_refl; simpl).
    destruct d; simpl; eexists; reflexivity.
  - destruct Hin.
Qed.

Lemma fire_effect ty p ctrl a d w w' :
  inv ty p ctrl w -> exec (fire a d) w = Some w' ->
  exists s,
    timer w = Some s /\
    dispatch_controller_ s = Some ctrl /\
    filter is_dispatch (log w') =
      filter is_dispatch (log w) ++ [EvDispatch ctrl d] /\
    (d = false ->
       timer w' = None /\
       filter is_delete (log w') = [EvDeleteState] /\
       pending w' = []) /\
    (d = true ->
       timer w' = Some (fired_state s (next_action w)) /\
       conts w' = conts w /\
       quiet w').
Proof.
  intros Hinv H.
  fire_cases Hinv H a d;
    (eexists; split; [reflexivity|]; split; [reflexivity|]; simpl;
     split;
     [ rewrite !filter_app; simpl; rewrite ?app_nil_r; reflexivity
     | split; intro Hd;
       first
         [ discriminate Hd
         | solve [ split; [reflexivity|]; split;
                   [ rewrite !filter_app; simpl;
                     unfold quiet in Hq; simpl in Hq;
                     rewrite (quiet_no_delete _ Hq); reflexivity
                   | rewrite ?Nat.eqb_refl; reflexivity ] ]
         | solve [ split; [reflexivity|]; split; [reflexivity|];
                   is_quiet ] ] ]).
Qed.

(** C5: in every world reached by [run] and callbacks, a callback for a
    pending action runs to completion and calls [dispatch()] once, on the
    controller that [run] stored.  When the answer is [false] the timer
    is deleted in that invocation, exactly one [delete] is logged,
    nothing stays pending and no callback can follow.  When the answer
    is [true] the timer stays alive with the state its first [if] block
    left, its continuation is not destroyed and nothing was cancelled; a
    periodic timer then has its periodic action pending for the next
    fire, a one-off timer has nothing pending and waits to be
    destroyed. *)
Theorem callback_dispatches
        (ty : TimerType) (p ip : Z) (ctrl : Controller)
        (l : list (ActionId * bool)) (w : World) (a : ActionId) (d : bool) :
  exec (lifecycle ty p ip ctrl l) boot = Some w ->
  In a (map sch_action (pending w)) ->
  exists s w',
    timer w = Some s /\
    dispatch_controller_ s = Some ctrl /\
    exec (fire a d) w = Some w' /\
    filter is_dispatch (log w') =
      filter is_dispatch (log w) ++ [EvDispatch ctrl d] /\
    (d = false ->
       timer w' = None /\
       filter is_delete (log w') = [EvDeleteState] /\
       pending w' = [] /\
       forall a' d', fire a' d' w' = None) /\
    (d = true ->
       let s' := fired_state s (next_action w) in
       timer w' = Some s' /\
       conts w' = conts w /\
       quiet w' /\
       (ty = TYPE_PERIODIC ->
        exists a',
          periodic_timer_action_ s' = Some a' /\
          pending w' = [mkScheduled a' (cont_ s') true p]) /\
       (ty = TYPE_ONE_OFF -> pending w' = [])).
Proof.
  intros Hw Hin.
  apply lifecycle_inv in Hw.
  destruct (fire_total ty p ctrl a d w Hw Hin) as [w' H].
  destruct (fire_effect ty p ctrl a d w w' Hw H)
    as (s & Es & Ec & Hdisp & Hfalse & Htrue).
  exists s, w'.
  split; [exact Es|]. split; [exact Ec|]. split; [exact H|].
  split; [exact Hdisp|]. split.
  - intro Hd. destruct (Hfalse Hd) as (Ht & Hdel & Hpe).
    split; [exact Ht|]. split; [exact Hdel|]. split; [exact Hpe|].
    intros a' d'. apply fire_nothing_pending. exact Hpe.
  - intro Hd. destruct (Htrue Hd) as (Ht & Hc & Hq).
    simpl. split; [exact Ht|]. split; [exact Hc|]. split; [exact Hq|].
    split.
    + intro Hty.
      destruct (fire_periodic_armed ty p ctrl a d w w' Hw H Hty)
        as [Hlive _].
      destruct (Hlive _ Ht) as (_ & a' & Hp & Hpe).
      exists a'. auto.
    + intro Hty.
      pose proof (fire_inv ty p ctrl a d w w' Hw H) as (_ & _ & Hl).
      rewrite Ht in Hl.
      destruct Hl as (_ & _ & _ & _ & _ & Hs).
      destruct Hs as [a0 ms Hi _ _ _ | a0 Hty' _ _ _ | _ _ Hpe].
      * exfalso. revert Hi. unfold fired_state.
        destruct (initial_timer_action_ s) eqn:Ei;
          [destruct (type_ s)|]; simpl; unfold NULL; congruence.
      * congruence.
      * exact Hpe.
Qed.

Lemma callback_dispatches_witness :
  exists s w',
    timer periodic_started = Some s /\
    dispatch_controller_ s = Some 7 /\
    exec (fire 1 false) periodic_started = Some w' /\
    filter is_dispatch (log w') =
      filter is_dispatch (log periodic_started) ++ [EvDispatch 7 false] /\
    (false = false ->
       timer w' = None /\
       filter is_delete (log w') = [EvDeleteState] /\
       pending w' = [] /\
       forall a' d', fire a' d' w' = None) /\
    (false = true ->
       let s' := fired_state s (next_action periodic_started) in
       timer w' = Some s' /\
       conts w' = conts periodic_started /\
       quiet w' /\
       (TYPE_PERIODIC = TYPE_PERIODIC ->
        exists a',
          periodic_timer_action_ s' = Some a' /\
          pending w' = [mkScheduled a' (cont_ s') true 200]) /\
       (TYPE_PERIODIC = TYPE_ONE_OFF -> pending w' = [])).
Proof.
  apply (callback_dispatches TYPE_PERIODIC 200 50 7 [] periodic_started
                             1 false).
  - vm_compute. reflexivity.
  - simpl. left. reflexivity.
Defined.

(* ================================================================= *)
(** ** The destructor *)

Lemma live_handles_length (s : AsyncTimerState) :
  length (live_handles s) = armed_handles s.
Proof.
  unfold live_handles, armed_handles.
  destruct (initial_timer_action_ s), (periodic_timer_action_ s);
    reflexivity.
Qed.

Lemma without_In (a : ActionId) (q : Scheduled) (l : list Scheduled) :
  In q (without a l) -> sch_action q <> a /\ In q l.
Proof.
  unfold without. intro H. apply filter_In in H. destruct H as [Hin Hq].
  split; [|exact Hin].
  intro E. rewrite E, Nat.eqb_refl in Hq. discriminate Hq.
Qed.

Lemma dtor_runs (w : World) (s : AsyncTimerState) :
  timer w = Some s ->
  exists w',
    exec dtor w = Some w' /\
    log w' = log w ++ map EvActionCancel (live_handles s) ++
                      [EvContDestroy (cont_ s); EvDeleteState] /\
    timer w' = None /\
    ~ In (cont_ s) (conts w') /\
    forall a, In a (live_handles s) ->
              ~ In a (map sch_action (pending w')).
Proof.
  intro E. destruct w as [na nc cs pe lg t hi]. simpl in E. subst t.
  destruct s as [c ty p ip ia pa dc].
  assert (Hc : ~ In c (filter (fun c' => negb (Nat.eqb c' c)) cs)).
  { intro H. apply filter_In in H. destruct H as [_ H].
    rewrite Nat.eqb_refl in H. discriminate H. }
  destruct ia as [i|], pa as [q|];
    (eexists; split; [reflexivity|]; simpl;
     split; [rewrite <- ?app_assoc; reflexivity|];
     split; [reflexivity|]; split; [exact Hc|]);
    unfold live_handles; simpl; intros a Ha Hin;
    apply in_map_iff in Hin; destruct Hin as (x & Hx & Hin).
  - apply without_In in Hin. destruct Hin as [H2 Hin].
    apply without_In in Hin. destruct Hin as [H1 _].
    destruct Ha as [<-|[<-|[]]]; congruence.
  - apply without_In in Hin. destruct Hin as [H1 _].
    destruct Ha as [<-|[]]; congruence.
  - apply without_In in Hin. destruct Hin as [H1 _].
    destruct Ha as [<-|[]]; congruence.
  - destruct Ha.
Qed.

(** C7: from any world in which the timer is alive the destructor runs
    to completion; it calls [TSActionCancel] on exactly the handles that
    are not [NULL] -- the initial one first -- and on no other, then
    destroys the continuation, then deletes the state; afterwards the
    timer is gone, its continuation is no longer live and none of the
    cancelled actions is pending.  In a reachable world at most one
    handle is cancelled. *)
Theorem dtor_cancels_armed (w : World) (s : AsyncTimerState) :
  timer w = Some s ->
  exists w',
    exec dtor w = Some w' /\
    log w' = log w ++ map EvActionCancel (live_handles s) ++
                      [EvContDestroy (cont_ s); EvDeleteState] /\
    timer w' = None /\
    ~ In (cont_ s) (conts w') /\
    (forall a, In a (live_handles s) ->
               ~ In a (map sch_action (pending w'))) /\
    (forall ty p ip, reachable ty p ip w -> length (live_handles s) <= 1).
Proof.
  intro E. destruct (dtor_runs w s E) as (w' & H & Hlog & Ht & Hc & Hp).
  exists w'. repeat (split; [assumption|]).
  intros ty p ip R.
  destruct (reachable_ok ty p ip w R) as (_ & _ & Hs).
  destruct (Hs s E) as [[Hok _] _].
  rewrite live_handles_length. exact Hok.
Qed.

Lemma dtor_cancels_armed_witness :
  exists w',
    exec dtor periodic_fired3 = Some w' /\
    log w' = log periodic_fired3 ++
             [EvActionCancel 2; EvContDestroy 1; EvDeleteState] /\
    timer w' = None.
Proof.
  destruct (dtor_cancels_armed
              periodic_fired3
              (mkState 1 TYPE_PERIODIC 200 50 NULL (Some 2) (Some 7))
              eq_refl)
    as (w' & H & Hlog & Ht & _).
  exists w'. split; [exact H|]. split; [exact Hlog | exact Ht].
Defined.

(* ================================================================= *)
(** ** No cancellation of a fired initial action *)

Lemma quiet_no_cancel (a : ActionId) (lg : list Event) :
  Forall (fun e => is_cancel e = false /\ is_delete e = false) lg ->
  ~ In (EvActionCancel a) lg.
Proof.
  intros H Hin. rewrite Forall_forall in H.
  destruct (H _ Hin) as [Hc _]. discriminate Hc.
Qed.

Lemma spent_dtor a w w' :
  spent a w -> exec dtor w = Some w' -> ~ In (EvActionCancel a) (log w').
Proof.
  intros [Hlog Hs] H.
  destruct (timer w) as [s|] eqn:E.
  - destruct (dtor_runs w s E) as (w2 & H2 & Hlog2 & _).
    rewrite H2 in H. injection H as <-.
    destruct (Hs s eq_refl) as [Hi Hp].
    rewrite Hlog2. unfold live_handles. rewrite Hi. simpl.
    intro Hin. apply in_app_iff in Hin. destruct Hin as [Hin|Hin].
    + exact (Hlog Hin).
    + apply in_app_iff in Hin. destruct Hin as [Hin|Hin].
      * destruct (periodic_timer_action_ s) as [q|]; simpl in Hin.
        -- destruct Hin as [Hin|[]]. congruence.
        -- destruct Hin.
      * simpl in Hin. destruct Hin as [Hin|[Hin|[]]]; discriminate Hin.
  - unfold exec, dtor, bind, get_state in H. rewrite E in H.
    discriminate H.
Qed.

Lemma not_in_snoc (a : ActionId) (lg : list Event) (e : Event) :
  ~ In (EvActionCancel a) lg -> e <> EvActionCancel a ->
  ~ In (EvActionCancel a) (lg ++ [e]).
Proof.
  intros H He Hin. apply in_app_iff in Hin.
  destruct Hin as [Hin|[Hin|[]]]; [exact (H Hin) | exact (He Hin)].
Qed.

Ltac no_cancel :=
  repeat first
    [ assumption
    | apply not_in_snoc
    | discriminate
    | congruence
    | let Hx := fresh in intro Hx; injection Hx; intros; lia ].

Lemma spent_fire a a' d w w' :
  spent a w -> exec (fire a' d) w = Some w' -> spent a w'.
Proof.
  intros [Hlog Hs] H.
  destruct w as [na nc cs pe lg [s|] hi]; simpl in *.
  - destruct (Hs s eq_refl) as [Hi Hp].
    destruct s as [c ty p ip ia pa dc]; simpl in *. subst ia.
    unfold exec, fire, deliver, bind in H; simpl in H.
    destruct (find _ pe) as [q|]; [|discriminate H].
    step_code H.
    destruct (Nat.eqb (sch_cont q) c); [|discriminate H].
    simpl in H.
    destruct dc as [ctrl|]; [|discriminate H].
    destruct d, pa as [x|]; simpl in H; injection H as <-; simpl;
      (split;
       [ no_cancel
       | intros s E; simpl in E;
         first [ discriminate E
               | injection E as <-; simpl; split; [reflexivity|congruence] ] ]).
  - unfold exec, fire, deliver, bind in H; simpl in H.
    destruct (find _ pe) as [q|]; discriminate H.
Qed.

Lemma fires_spent a l w w' :
  spent a w -> exec (fires l) w = Some w' -> spent a w'.
Proof.
  revert w. induction l as [|[a' d] l IH]; intros w Hw H.
  - injection H as <-. exact Hw.
  - rewrite fires_cons in H.
    destruct (exec (fire a' d) w) as [w1|] eqn:E; [|discriminate H].
    eapply IH; [eapply spent_fire; eassumption | exact H].
Qed.

(** The callback that finds the initial action [a] pending leaves it
    spent: the handle is cleared and a periodic handle armed in its place
    is a fresh one. *)
Lemma first_fire_spent ty p ctrl a a' d w w' :
  inv ty p ctrl w -> exec (fire a' d) w = Some w' ->
  forall s, timer w = Some s -> initial_timer_action_ s = Some a ->
            spent a w'.
Proof.
  intros Hinv H.
  fire_cases Hinv H a' d; intros s E Ei; simpl in E;
    injection E as <-; simpl in Ei;
    first [ discriminate Ei | injection Ei as <- ];
    unfold quiet in Hq; simpl in Hq;
    pose proof (quiet_no_cancel a' lg Hq) as Hn;
    (split;
     [ simpl; no_cancel
     | intros s E; simpl in E;
       first [ discriminate E
             | injection E as <-; simpl; split;
               [ reflexivity
               | first [ discriminate
                       | intro Hx; injection Hx as ->; lia ] ] ] ]).
Qed.

(** C4: take any world reached by [run] and callbacks in which the
    initial handle is set to [a], let the callback for it run, then any
    further callbacks.  No cancellation of [a] has been logged by then --
    whether or not the timer deleted itself on the way -- and a
    destructor run from there, which succeeds whenever the timer is
    still alive, does not cancel [a] either. *)
Theorem fired_initial_never_cancelled
        (ty : TimerType) (p ip : Z) (ctrl : Controller)
        (l l' : list (ActionId * bool))
        (w w1 : World) (s : AsyncTimerState) (a : ActionId) (d : bool) :
  exec (lifecycle ty p ip ctrl l) boot = Some w ->
  timer w = Some s ->
  initial_timer_action_ s = Some a ->
  exec (fires ((a, d) :: l')) w = Some w1 ->
  ~ In (EvActionCancel a) (log w1) /\
  (forall w2, exec dtor w1 = Some w2 -> ~ In (EvActionCancel a) (log w2)) /\
  (forall s1, timer w1 = Some s1 ->
     initial_timer_action_ s1 = NULL /\
     exists w2, exec dtor w1 = Some w2).
Proof.
  intros Hw Es Ei H.
  apply lifecycle_inv in Hw.
  rewrite fires_cons in H.
  destruct (exec (fire a d) w) as [w0|] eqn:E0; [|discriminate H].
  assert (Hsp : spent a w1).
  { eapply fires_spent; [|exact H].
    eapply first_fire_spent; eassumption. }
  split; [exact (proj1 Hsp)|]. split.
  - intros w2 H2. eapply spent_dtor; eassumption.
  - intros s1 E1. split.
    + exact (proj1 (proj2 Hsp s1 E1)).
    + destruct (dtor_runs w1 s1 E1) as (w2 & H2 & _).
      exists w2. exact H2.
Qed.

Lemma fired_initial_never_cancelled_witness :
  ~ In (EvActionCancel 1) (log periodic_fired2) /\
  (forall w2, exec dtor periodic_fired2 = Some w2 ->
              ~ In (EvActionCancel 1) (log w2)) /\
  (forall s1, timer periodic_fired2 = Some s1 ->
     initial_timer_action_ s1 = NULL /\
     exists w2, exec dtor periodic_fired2 = Some w2).
Proof.
  apply (fired_initial_never_cancelled
           TYPE_PERIODIC 200 50 7 [] [(2, true)]
           periodic_started periodic_fired2
           (mkState 1 TYPE_PERIODIC 200 50 (Some 1) NULL (Some 7))
           1 true).
  - vm_compute. reflexivity.
  - reflexivity.
  - reflexivity.
  - vm_compute. reflexivity.
Defined.

(* ================================================================= *)
(** * Further properties of AsyncTimer *)

(** ** Construction and immediate destruction *)

Lemma filter_other_conts (c : TSCont) (cs : list TSCont) :
  Forall (fun c' => c' < c) cs ->
  filter (fun c' => negb (Nat.eqb c' c)) cs = cs.
Proof.
  induction 1 as [|c' cs Hc _ IH]; simpl.
  - reflexivity.
  - destruct (Nat.eqb_spec c' c) as [->|_]; [lia|].
    simpl. rewrite IH. reflexivity.
Qed.

(** X1: on a host that holds no timer, the constructor creates one
    continuation, schedules nothing and leaves both handles [NULL] and
    the controller empty; destroying the timer right away cancels
    nothing, and the host's pending actions and live continuations are
    then what they were before the construction. *)
Theorem ctor_dtor_round_trip
        (ty : TimerType) (p ip : Z) (w0 : World) :
  timer w0 = None ->
  fresh_conts w0 ->
  exists w w',
    exec (ctor ty p ip) w0 = Some w /\
    timer w = Some (mkState (next_cont w0) ty p ip NULL NULL None) /\
    pending w = pending w0 /\
    log w = log w0 ++ [EvContCreate (next_cont w0)] /\
    exec dtor w = Some w' /\
    timer w' = None /\
    pending w' = pending w0 /\
    conts w' = conts w0 /\
    log w' = log w ++ [EvContDestroy (next_cont w0); EvDeleteState].
Proof.
  intros E Hf.
  destruct w0 as [na nc cs pe lg t hi]. simpl in E. subst t.
  unfold fresh_conts in Hf. simpl in Hf.
  do 2 eexists. split; [reflexivity|]. simpl.
  do 3 (split; [reflexivity|]).
  split; [reflexivity|]. simpl.
  split; [reflexivity|]. split; [reflexivity|]. split.
  - rewrite filter_app. simpl. rewrite Nat.eqb_refl. simpl.
    rewrite app_nil_r. apply filter_other_conts. exact Hf.
  - rewrite <- app_assoc. reflexivity.
Qed.

Lemma ctor_dtor_round_trip_witness :
  exists w w',
    exec (ctor TYPE_PERIODIC 200 50) boot = Some w /\
    timer w = Some (mkState 1 TYPE_PERIODIC 200 50 NULL NULL None) /\
    pending w = [] /\
    log w = [EvContCreate 1] /\
    exec dtor w = Some w' /\
    timer w' = None /\
    pending w' = [] /\
    conts w' = [] /\
    log w' = log w ++ [EvContDestroy 1; EvDeleteState].
Proof.
  apply (ctor_dtor_round_trip TYPE_PERIODIC 200 50 boot).
  - reflexivity.
  - unfold fresh_conts. simpl. apply Forall_nil.
Defined.

(** ** Facts that hold right after [run] *)

Lemma started_facts ty p ip ctrl w :
  started ty p ip ctrl = Some w ->
  Forall (config ty p ip) (history w) /\
  filter is_dispatch (log w) = [] /\
  exists s, timer w = Some s /\ conts w = [cont_ s].
Proof.
  unfold started. intro H.
  destruct ty; unfold exec, ctor, run, bind, nonzero in H; simpl in H.
  - destruct (Z.eqb_spec p 0); simpl in H; injection H as <-; simpl;
      (split; [repeat constructor|]); (split; [reflexivity|]);
      eexists; split; reflexivity.
  - destruct (Z.eqb_spec ip 0); simpl in H;
      [destruct (Z.eqb_spec p 0); simpl in H|];
      injection H as <-; simpl;
      (split; [repeat constructor|]); (split; [reflexivity|]);
      eexists; split; reflexivity.
Qed.

Lemma hd_error_rev_In (A : Type) (l : list A) (x : A) :
  hd_error (rev l) = Some x -> In x l.
Proof.
  intro H. apply in_rev. destruct (rev l) as [|y r]; simpl in H.
  - discriminate H.
  - injection H as ->. left. reflexivity.
Qed.

(** ** The configuration is never written *)

Lemma fire_config ty p ip ctrl a d w w' :
  inv ty p ctrl w -> exec (fire a d) w = Some w' ->
  Forall (config ty p ip) (history w) ->
  Forall (config ty p ip) (history w').
Proof.
  intros Hinv H.
  fire_cases Hinv H a d; intro Hc;
    pose proof (proj1 (Forall_forall _ _) Hc _ (hd_error_rev_In _ _ _ Hlast))
      as (_ & _ & Hip);
    simpl in Hip; subst;
    repeat first
      [ assumption
      | apply Forall_app; split
      | apply Forall_cons
      | apply Forall_nil
      | split; reflexivity
      | split ].
Qed.

Lemma fires_config ty p ip ctrl l w w' :
  inv ty p ctrl w -> exec (fires l) w = Some w' ->
  Forall (config ty p ip) (history w) ->
  Forall (config ty p ip) (history w').
Proof.
  revert w. induction l as [|[a d] l IH]; intros w Hw H Hc.
  - injection H as <-. exact Hc.
  - rewrite fires_cons in H.
    destruct (exec (fire a d) w) as [w1|] eqn:E; [|discriminate H].
    eapply IH; [eapply fire_inv; eassumption | exact H |].
    eapply fire_config; eassumption.
Qed.

(** X2: the type and the two periods given to the constructor are never
    written again: in every reachable world -- after construction, after
    [run], after any number of callbacks -- every value the state has
    held, the current one included, carries them unchanged. *)
Theorem config_never_changes (ty : TimerType) (p ip : Z) (w : World) :
  reachable ty p ip w ->
  Forall (config ty p ip) (history w) /\
  forall s, timer w = Some s -> config ty p ip s.
Proof.
  intro R.
  assert (Hh : Forall (config ty p ip) (history w)).
  { destruct R as [H | ctrl l H].
    - injection H as <-. simpl. repeat constructor.
    - rewrite lifecycle_started in H.
      destruct (started ty p ip ctrl) as [w0|] eqn:E0; [|discriminate H].
      eapply fires_config; [eapply started_inv; exact E0 | exact H |].
      apply (started_facts ty p ip ctrl w0 E0). }
  split; [exact Hh|].
  intros s E.
  destruct (reachable_ok ty p ip w R) as (_ & _ & Hc).
  destruct (Hc s E) as [_ Hl].
  rewrite Forall_forall in Hh. apply Hh.
  apply hd_error_rev_In. exact Hl.
Qed.

Lemma config_never_changes_witness :
  Forall (config TYPE_PERIODIC 200 50) (history periodic_fired3) /\
  forall s, timer periodic_fired3 = Some s -> config TYPE_PERIODIC 200 50 s.
Proof.
  apply (config_never_changes TYPE_PERIODIC 200 50 periodic_fired3).
  apply reach_running
    with (ctrl := 7) (l := [(1, true); (2, true); (2, true)]).
  vm_compute. reflexivity.
Defined.

(** ** One dispatch per callback *)

Lemma fires_dispatches ty p ctrl l w w' :
  inv ty p ctrl w -> exec (fires l) w = Some w' ->
  filter is_dispatch (log w') =
  filter is_dispatch (log w) ++ map (answer_event ctrl) l.
Proof.
  revert w. induction l as [|[a d] l IH]; intros w Hw H.
  - injection H as <-. simpl. rewrite app_nil_r. reflexivity.
  - rewrite fires_cons in H.
    destruct (exec (fire a d) w) as [w1|] eqn:E; [|discriminate H].
    destruct (fire_effect ty p ctrl a d w w1 Hw E) as (s & _ & _ & Hd & _).
    rewrite (IH w1 (fire_inv ty p ctrl a d w w1 Hw E) H), Hd.
    rewrite <- app_assoc. reflexivity.
Qed.

(** X3: over a whole execution -- construction, [run], then the
    callbacks of [l] -- the calls of [dispatch()] in the log are exactly
    one per callback, in order, each on the controller given to [run]
    and with that callback's answer; [run] and the constructor call
    [dispatch()] never. *)
Theorem one_dispatch_per_callback
        (ty : TimerType) (p ip : Z) (ctrl : Controller)
        (l : list (ActionId * bool)) (w : World) :
  exec (lifecycle ty p ip ctrl l) boot = Some w ->
  filter is_dispatch (log w) = map (answer_event ctrl) l.
Proof.
  intro H. rewrite lifecycle_started in H.
  destruct (started ty p ip ctrl) as [w0|] eqn:E0; [|discriminate H].
  rewrite (fires_dispatches ty p ctrl l w0 w (started_inv _ _ _ _ _ E0) H).
  destruct (started_facts ty p ip ctrl w0 E0) as (_ & -> & _).
  reflexivity.
Qed.

Lemma one_dispatch_per_callback_witness :
  filter is_dispatch (log periodic_fired3) =
  [EvDispatch 7 true; EvDispatch 7 true; EvDispatch 7 true].
Proof.
  apply (one_dispatch_per_callback
           TYPE_PERIODIC 200 50 7 [(1, true); (2, true); (2, true)]).
  vm_compute. reflexivity.
Defined.

(** ** A one-off timer fires once *)

Lemma fire_one_off_idle ty p ctrl a d w w' :
  inv ty p ctrl w -> exec (fire a d) w = Some w' ->
  ty = TYPE_ONE_OFF -> pending w' = [].
Proof.
  intros Hinv H.
  fire_cases Hinv H a d; intro Hty; first [ discriminate Hty | reflexivity ].
Qed.

(** X4: a one-off timer gets at most one callback: whatever its periods
    and whatever the receiver answers, no execution of a timer built with
    [TYPE_ONE_OFF] has a second callback. *)
Theorem one_off_fires_at_most_once
        (p ip : Z) (ctrl : Controller) (l : list (ActionId * bool))
        (w : World) :
  exec (lifecycle TYPE_ONE_OFF p ip ctrl l) boot = Some w ->
  length l <= 1.
Proof.
  intro H. rewrite lifecycle_started in H.
  destruct (started TYPE_ONE_OFF p ip ctrl) as [w0|] eqn:E0;
    [|discriminate H].
  destruct l as [|[a d] l]; [simpl; lia|].
  rewrite fires_cons in H.
  destruct (exec (fire a d) w0) as [w1|] eqn:E1; [|discriminate H].
  pose proof (fire_one_off_idle TYPE_ONE_OFF p ctrl a d w0 w1
                (started_inv _ _ _ _ _ E0) E1 eq_refl) as Hp.
  destruct (fires_nothing_pending l w1 w Hp H) as [-> _].
  simpl. lia.
Qed.

Lemma one_off_fires_at_most_once_witness :
  length [(1, true)] <= 1.
Proof.
  apply (one_off_fires_at_most_once 100 0 7 [(1, true)] one_off_fired).
  vm_compute. reflexivity.
Defined.

(** ** Self-deletion happens at a [false] answer and only then *)





(** ** The handles and the host's pending actions *)

Lemma fire_conts ty p ctrl a d w w' :
  inv ty p ctrl w -> exec (fire a d) w = Some w' ->
  (forall s, timer w = Some s -> conts w = [cont_ s]) ->
  (forall s, timer w' = Some s -> conts w' = [cont_ s]) /\
  (timer w' = None -> conts w' = []).
Proof.
  intros Hinv H.
  fire_cases Hinv H a d; intro Hc; specialize (Hc _ eq_refl);
    simpl in Hc; subst; simpl;
    (split;
     [ intros s E; first [ discriminate E | injection E as <-; reflexivity ]
     | intro E; first [ discriminate E
                      | rewrite Nat.eqb_refl; reflexivity ] ]).
Qed.

Lemma fires_conts ty p ctrl l w w' :
  inv ty p ctrl w -> exec (fires l) w = Some w' ->
  (forall s, timer w = Some s -> conts w = [cont_ s]) ->
  (timer w = None -> conts w = []) ->
  (forall s, timer w' = Some s -> conts w' = [cont_ s]) /\
  (timer w' = None -> conts w' = []).
Proof.
  revert w. induction l as [|[a d] l IH]; intros w Hw H Hlive Hdead.
  - injection H as <-. auto.
  - rewrite fires_cons in H.
    destruct (exec (fire a d) w) as [w1|] eqn:E; [|discriminate H].
    destruct (fire_conts ty p ctrl a d w w1 Hw E Hlive) as [Hl1 Hd1].
    eapply IH; [eapply fire_inv; eassumption | exact H | exact Hl1
               | exact Hd1].
Qed.

Lemma lifecycle_conts ty p ip ctrl l w :
  exec (lifecycle ty p ip ctrl l) boot = Some w ->
  (forall s, timer w = Some s -> conts w = [cont_ s]) /\
  (timer w = None -> conts w = []).
Proof.
  intro H. rewrite lifecycle_started in H.
  destruct (started ty p ip ctrl) as [w0|] eqn:E0; [|discriminate H].
  destruct (started_facts ty p ip ctrl w0 E0) as (_ & _ & s0 & Es & Ec).
  eapply fires_conts; [eapply started_inv; exact E0 | exact H | |].
  - intros s E. rewrite Es in E. injection E as <-. exact Ec.
  - intro E. rewrite Es in E. discriminate E.
Qed.

Lemma shape_tracked ty p w s :
  shape ty p w s ->
  map sch_action (pending w) = live_handles s /\
  Forall (fun q => sch_cont q = cont_ s) (pending w).
Proof.
  unfold live_handles.
  intros [a ms Hi Hp Hpe _ | a _ Hi Hp Hpe | Hi Hp Hpe];
    rewrite Hi, Hp, Hpe; simpl; split;
    first [ reflexivity | repeat constructor ].
Qed.

Lemma reachable_tracked ty p ip w s :
  reachable ty p ip w -> timer w = Some s ->
  map sch_action (pending w) = live_handles s /\
  Forall (fun q => sch_cont q = cont_ s) (pending w) /\
  conts w = [cont_ s].
Proof.
  intros [H | ctrl l H] E.
  - injection H as <-. simpl in E. injection E as <-.
    simpl. repeat split. apply Forall_nil.
  - pose proof (lifecycle_inv ty p ip ctrl l w H) as (_ & _ & Hl).
    rewrite E in Hl. destruct Hl as (_ & _ & _ & _ & _ & Hs).
    destruct (shape_tracked ty p w s Hs) as [Hm Hc].
    split; [exact Hm|]. split; [exact Hc|].
    apply (proj1 (lifecycle_conts ty p ip ctrl l w H)). exact E.
Qed.

(** X6: in every reachable world the timer's handles mirror the host:
    while the timer is alive the actions pending in the host are exactly
    its non-[NULL] handles, every one of them is scheduled on the
    timer's own continuation, and that continuation is the one live
    continuation; once the timer has deleted itself the host holds no
    pending action and no live continuation. *)
Theorem handles_mirror_host (ty : TimerType) (p ip : Z) (w : World) :
  reachable ty p ip w ->
  (forall s, timer w = Some s ->
     map sch_action (pending w) = live_handles s /\
     Forall (fun q => sch_cont q = cont_ s) (pending w) /\
     conts w = [cont_ s]) /\
  (timer w = None -> pending w = [] /\ conts w = []).
Proof.
  intro R. split.
  - intros s E. exact (reachable_tracked ty p ip w s R E).
  - intro E. destruct R as [H | ctrl l H].
    + injection H as <-. discriminate E.
    + split.
      * pose proof (lifecycle_inv ty p ip ctrl l w H) as (_ & _ & Hl).
        rewrite E in Hl. exact Hl.
      * apply (proj2 (lifecycle_conts ty p ip ctrl l w H)). exact E.
Qed.

Lemma handles_mirror_host_witness :
  (forall s, timer periodic_fired3 = Some s ->
     map sch_action (pending periodic_fired3) = live_handles s /\
     Forall (fun q => sch_cont q = cont_ s) (pending periodic_fired3) /\
     conts periodic_fired3 = [cont_ s]) /\
  (timer periodic_fired3 = None ->
   pending periodic_fired3 = [] /\ conts periodic_fired3 = []).
Proof.
  apply (handles_mirror_host TYPE_PERIODIC 200 50 periodic_fired3).
  apply reach_running
    with (ctrl := 7) (l := [(1, true); (2, true); (2, true)]).
  vm_compute. reflexivity.
Defined.

(** ** The destructor leaves nothing behind *)

Lemma dtor_clears (w w' : World) (s : AsyncTimerState) :
  timer w = Some s ->
  map sch_action (pending w) = live_handles s ->
  conts w = [cont_ s] ->
  exec dtor w = Some w' ->
  pending w' = [] /\ conts w' = [].
Proof.
  intros E Hm Hc H.
  destruct w as [na nc cs pe lg t hi]. simpl in *. subst t cs.
  destruct s as [c ty p ip ia pa dc]. unfold live_handles in Hm.
  simpl in *.
  destruct ia as [i|], pa as [q|]; simpl in Hm;
    unfold exec, dtor, bind in H; simpl in H; injection H as <-; simpl;
    rewrite Nat.eqb_refl; simpl; (split; [|reflexivity]).
  - destruct pe as [|x [|y [|z pe]]]; try discriminate Hm.
    simpl in Hm. injection Hm as Hx Hy. subst i q.
    simpl. rewrite !Nat.eqb_refl. simpl.
    destruct (Nat.eqb (sch_action y) (sch_action x)); simpl;
      rewrite ?Nat.eqb_refl; reflexivity.
  - destruct pe as [|x [|y pe]]; try discriminate Hm.
    simpl in Hm. injection Hm as Hx. subst i.
    simpl. rewrite Nat.eqb_refl. reflexivity.
  - destruct pe as [|x [|y pe]]; try discriminate Hm.
    simpl in Hm. injection Hm as Hx. subst q.
    simpl. rewrite Nat.eqb_refl. reflexivity.
  - destruct pe; [reflexivity | discriminate Hm].
Qed.

(** X7: destroying a live timer in any reachable world leaves nothing
    behind in the host: the destructor succeeds, no action stays
    pending, no continuation stays live, and no callback can be
    delivered afterwards. *)
Theorem dtor_leaves_host_clean
        (ty : TimerType) (p ip : Z) (w : World) (s : AsyncTimerState) :
  reachable ty p ip w ->
  timer w = Some s ->
  exists w',
    exec dtor w = Some w' /\
    timer w' = None /\
    pending w' = [] /\
    conts w' = [] /\
    forall a d, fire a d w' = None.
Proof.
  intros R E.
  destruct (dtor_runs w s E) as (w' & H & _ & Ht & _).
  destruct (reachable_tracked ty p ip w s R E) as (Hm & _ & Hc).
  destruct (dtor_clears w w' s E Hm Hc H) as [Hp Hcs].
  exists w'. repeat (split; [assumption|]).
  intros a d. apply fire_nothing_pending. exact Hp.
Qed.

Lemma dtor_leaves_host_clean_witness :
  exists w',
    exec dtor periodic_fired3 = Some w' /\
    timer w' = None /\
    pending w' = [] /\
    conts w' = [] /\
    forall a d, fire a d w' = None.
Proof.
  apply (dtor_leaves_host_clean
           TYPE_PERIODIC 200 50 periodic_fired3
           (mkState 1 TYPE_PERIODIC 200 50 NULL (Some 2) (Some 7))).
  - apply reach_running
      with (ctrl := 7) (l := [(1, true); (2, true); (2, true)]).
    vm_compute. reflexivity.
  - reflexivity.
Defined.

(** ** Scheduling calls over a lifetime *)

Lemma started_scheduled ty p ip ctrl w :
  started ty p ip ctrl = Some w -> scheduled_once_each w.
Proof.
  unfold started, scheduled_once_each. intro H.
  destruct ty; unfold exec, ctor, run, bind, nonzero in H; simpl in H.
  - destruct (Z.eqb_spec p 0); simpl in H; injection H as <-; simpl;
      (split; [lia|]); (split; [lia|]); intros s E Hi;
      injection E as <-; simpl in Hi;
      first [ reflexivity | exfalso; apply Hi; reflexivity ].
  - destruct (Z.eqb_spec ip 0); simpl in H;
      [destruct (Z.eqb_spec p 0); simpl in H|];
      injection H as <-; simpl;
      (split; [lia|]); (split; [lia|]); intros s E Hi;
      injection E as <-; simpl in Hi;
      first [ reflexivity | exfalso; apply Hi; reflexivity ].
Qed.

Lemma fire_scheduled ty p ctrl a d w w' :
  inv ty p ctrl w -> exec (fire a d) w = Some w' ->
  scheduled_once_each w -> scheduled_once_each w'.
Proof.
  intros Hinv H. unfold scheduled_once_each.
  fire_cases Hinv H a d; intros (H1 & H2 & H3); simpl in *;
    try (assert (H0 : filter is_schedule_every lg = [])
          by (apply (H3 _ eq_refl); discriminate));
    rewrite !filter_app, !length_app; simpl;
    rewrite ?H0; simpl;
    (split; [lia|]); (split; [lia|]); intros s E Hi;
    first [ discriminate E
          | injection E as <-; simpl in Hi;
            exfalso; apply Hi; reflexivity ].
Qed.

(** X8: over a whole execution, however many callbacks it has, the timer
    asks the host for at most one one-off callback and at most one
    periodic callback: the periodic action is armed once and never
    re-armed by later fires. *)
Theorem schedules_at_most_once_each
        (ty : TimerType) (p ip : Z) (ctrl : Controller)
        (l : list (ActionId * bool)) (w : World) :
  exec (lifecycle ty p ip ctrl l) boot = Some w ->
  length (filter is_schedule_once (log w)) <= 1 /\
  length (filter is_schedule_every (log w)) <= 1.
Proof.
  intro H. rewrite lifecycle_started in H.
  destruct (started ty p ip ctrl) as [w0|] eqn:E0; [|discriminate H].
  assert (Hs : scheduled_once_each w).
  { pose proof (started_inv ty p ip ctrl w0 E0) as Hinv.
    pose proof (started_scheduled ty p ip ctrl w0 E0) as Hs0.
    clear E0. revert w0 Hinv Hs0 H.
    induction l as [|[a d] l IH]; intros w0 Hinv Hs0 H.
    - injection H as <-. exact Hs0.
    - rewrite fires_cons in H.
      destruct (exec (fire a d) w0) as [w1|] eqn:E1; [|discriminate H].
      apply (IH w1).
      + eapply fire_inv; eassumption.
      + eapply fire_scheduled; eassumption.
      + exact H. }
  destruct Hs as (H1 & H2 & _). auto.
Qed.

Lemma schedules_at_most_once_each_witness :
  length (filter is_schedule_once (log periodic_fired3)) <= 1 /\
  length (filter is_schedule_every (log periodic_fired3)) <= 1.
Proof.
  apply (schedules_at_most_once_each
           TYPE_PERIODIC 200 50 7 [(1, true); (2, true); (2, true)]).
  vm_compute. reflexivity.
Defined.

(** ** [run] is not guarded against a second call *)

(** X9: [run] does not check whether the timer was run before.  When the
    selected timeout is nonzero, a second [run] schedules a second
    action, overwrites the handle of the first and replaces the
    controller: two actions are pending while one handle is set, and the
    destructor, which cancels only what the handles name, leaves the
    first action pending in the host. *)
Theorem second_run_leaks_action
        (ty : TimerType) (p ip : Z) (c1 c2 : Controller) :
  selects_timeout ty p ip ->
  exists w s w',
    exec (ctor ty p ip ;; run c1 ;; run c2) boot = Some w /\
    timer w = Some s /\
    armed_handles s = 1 /\
    live_handles s = [2] /\
    map sch_action (pending w) = [1; 2] /\
    dispatch_controller_ s = Some c2 /\
    exec dtor w = Some w' /\
    map sch_action (pending w') = [1].
Proof.
  unfold selects_timeout. intro Hsel.
  destruct ty; unfold exec, ctor, run, bind, nonzero; simpl.
  - apply Z.eqb_neq in Hsel.
    repeat (rewrite Hsel; simpl).
    do 3 eexists. repeat (split; [reflexivity|]). reflexivity.
  - destruct (Z.eqb_spec ip 0) as [->|Hip]; simpl.
    + destruct Hsel as [Hsel|Hsel]; [contradiction|].
      apply Z.eqb_neq in Hsel.
      repeat (rewrite Hsel; simpl).
      do 3 eexists. repeat (split; [reflexivity|]). reflexivity.
    + apply Z.eqb_neq in Hip.
      repeat (rewrite Hip; simpl).
      do 3 eexists. repeat (split; [reflexivity|]). reflexivity.
Qed.

Lemma second_run_leaks_action_witness :
  exists w s w',
    exec (ctor TYPE_ONE_OFF 100 0 ;; run 7 ;; run 8) boot = Some w /\
    timer w = Some s /\
    armed_handles s = 1 /\
    live_handles s = [2] /\
    map sch_action (pending w) = [1; 2] /\
    dispatch_controller_ s = Some 8 /\
    exec dtor w = Some w' /\
    map sch_action (pending w') = [1].
Proof.
  apply (second_run_leaks_action TYPE_ONE_OFF 100 0 7 8).
  simpl. discriminate.
Defined.

(** X10: the at-most-one-handle property rests on [run] being called
    once.  On a periodic timer with nonzero [initial_period_ms], a second
    [run] after the initial callback arms a new initial action while the
    periodic one stays armed: both handles are set at once, two actions
    are pending, and the destructor then cancels both. *)
Theorem second_run_after_fire_arms_both
        (p ip : Z) (c1 c2 : Controller) :
  ip <> 0%Z ->
  exists w s w',
    exec (ctor TYPE_PERIODIC p ip ;; run c1 ;; fire 1 true ;; run c2) boot
      = Some w /\
    timer w = Some s /\
    armed_handles s = 2 /\
    live_handles s = [3; 2] /\
    map sch_action (pending w) = [2; 3] /\
    exec dtor w = Some w' /\
    filter is_cancel (log w') = [EvActionCancel 3; EvActionCancel 2] /\
    pending w' = [].
Proof.
  intro Hip. apply Z.eqb_neq in Hip.
  unfold exec, ctor, run, fire, deliver, handleTimerEvent, TSContDataGet,
    dispatch, bind, nonzero; simpl.
  repeat (rewrite Hip; simpl).
  do 3 eexists. repeat (split; [reflexivity|]). reflexivity.
Qed.

Lemma second_run_after_fire_arms_both_witness :
  exists w s w',
    exec (ctor TYPE_PERIODIC 200 50 ;; run 7 ;; fire 1 true ;; run 8) boot
      = Some w /\
    timer w = Some s /\
    armed_handles s = 2 /\
    live_handles s = [3; 2] /\
    map sch_action (pending w) = [2; 3] /\
    exec dtor w = Some w' /\
    filter is_cancel (log w') = [EvActionCancel 3; EvActionCancel 2] /\
    pending w' = [].
Proof.
  apply (second_run_after_fire_arms_both 200 50 7 8).
  discriminate.
Defined.

(** ** A periodic timer keeps firing *)

Lemma started_pending ty p ip ctrl w :
  selects_timeout ty p ip ->
  started ty p ip ctrl = Some w ->
  pending w <> [].
Proof.
  unfold started, selects_timeout. intros Hsel H.
  destruct ty; unfold exec, ctor, run, bind, nonzero in H; simpl in H.
  - destruct (Z.eqb_spec p 0); [contradiction|].
    simpl in H. injection H as <-. discriminate.
  - destruct (Z.eqb_spec ip 0); simpl in H;
      [destruct (Z.eqb_spec p 0); [destruct Hsel; contradiction|];
       simpl in H|];
      injection H as <-; discriminate.
Qed.

(** X11: a periodic timer whose selected timeout is nonzero never stops
    by itself: after [run] and any number of callbacks, as long as the
    timer has not been deleted, the host holds an action whose callback
    can be delivered and runs to completion, whatever the receiver then
    answers. *)
Theorem periodic_keeps_firing
        (p ip : Z) (ctrl : Controller) (l : list (ActionId * bool))
        (w : World) :
  selects_timeout TYPE_PERIODIC p ip ->
  exec (lifecycle TYPE_PERIODIC p ip ctrl l) boot = Some w ->
  timer w <> None ->
  exists a, forall d, exists w', exec (fire a d) w = Some w'.
Proof.
  intros Hsel H Hlive.
  pose proof (lifecycle_inv TYPE_PERIODIC p ip ctrl l w H) as Hinv.
  assert (Hp : pending w <> []).
  { rewrite lifecycle_started in H.
    destruct (started TYPE_PERIODIC p ip ctrl) as [w0|] eqn:E0;
      [|discriminate H].
    destruct l as [|x l] using rev_ind.
    - injection H as <-.
      exact (started_pending TYPE_PERIODIC p ip ctrl w0 Hsel E0).
    - clear IHl. destruct x as [a d].
      rewrite fires_app in H.
      destruct (exec (fires l) w0) as [w1|] eqn:E1; [|discriminate H].
      rewrite fires_cons in H.
      destruct (exec (fire a d) w1) as [w2|] eqn:E2; [|discriminate H].
      injection H as <-.
      assert (Hinv1 : inv TYPE_PERIODIC p ctrl w1).
      { eapply fires_inv; [eapply started_inv; exact E0 | exact E1]. }
      destruct (fire_periodic_armed TYPE_PERIODIC p ctrl a d w1 w2
                  Hinv1 E2 eq_refl) as [Harm _].
      destruct (timer w2) as [s|] eqn:Et; [|contradiction].
      destruct (Harm s eq_refl) as (_ & a' & _ & Hpe).
      rewrite Hpe. discriminate. }
  destruct (pending w) as [|q pe] eqn:Epe; [contradiction|].
  exists (sch_action q). intro d.
  apply (fire_total TYPE_PERIODIC p ctrl (sch_action q) d w Hinv).
  rewrite Epe. simpl. left. reflexivity.
Qed.

Lemma periodic_keeps_firing_witness :
  exists a, forall d, exists w', exec (fire a d) periodic_fired3 = Some w'.
Proof.
  apply (periodic_keeps_firing
           200 50 7 [(1, true); (2, true); (2, true)] periodic_fired3).
  - simpl. left. discriminate.
  - vm_compute. reflexivity.
  - discriminate.
Defined.

(* ================================================================= *)
(** * Proofs: AsyncHttpFetch *)

(** C8: once a fetch has completed, [getResult] is the delivered result;
    when that result is [RESULT_FAILURE] or [RESULT_TIMEOUT],
    [getResponseBody] sets the body pointer to [NULL] and the size to
    [0]; when it is [RESULT_SUCCESS] the body is the delivered payload
    and the size is its length. *)
Theorem getResponseBody_after_completion
        (st : AsyncHttpFetch.AsyncHttpFetchState)
        (r : AsyncHttpFetch.Result) (payload : list Byte.byte) :
  let st' := AsyncHttpFetch.complete r payload st in
  AsyncHttpFetch.getResult st' = Some r /\
  (r = AsyncHttpFetch.RESULT_FAILURE \/ r = AsyncHttpFetch.RESULT_TIMEOUT ->
   AsyncHttpFetch.getResponseBody st' = (NULL, 0%N)) /\
  (r = AsyncHttpFetch.RESULT_SUCCESS ->
   AsyncHttpFetch.getResponseBody st' =
   (Some payload, N.of_nat (length payload))).
Proof.
  destruct r; simpl; (split; [reflexivity|]); split; intro H;
    first [ reflexivity | discriminate H | destruct H; discriminate ].
Qed.

Lemma getResponseBody_after_completion_witness :
  AsyncHttpFetch.getResponseBody
    (AsyncHttpFetch.complete AsyncHttpFetch.RESULT_TIMEOUT
       [Byte.x68; Byte.x69] AsyncHttpFetch.pending_fetch) = (NULL, 0%N) /\
  AsyncHttpFetch.getResponseBody
    (AsyncHttpFetch.complete AsyncHttpFetch.RESULT_SUCCESS
       [Byte.x68; Byte.x69] AsyncHttpFetch.pending_fetch) =
  (Some [Byte.x68; Byte.x69], 2%N).
Proof.
  split.
  - apply (proj1 (proj2 (getResponseBody_after_completion
                           AsyncHttpFetch.pending_fetch
                           AsyncHttpFetch.RESULT_TIMEOUT
                           [Byte.x68; Byte.x69]))).
    right. reflexivity.
  - apply (proj2 (proj2 (getResponseBody_after_completion
                           AsyncHttpFetch.pending_fetch
                           AsyncHttpFetch.RESULT_SUCCESS
                           [Byte.x68; Byte.x69]))).
    reflexivity.
Defined.
